(** * Shared ring buffer (libsharedringbuffer)

    A shallow embedding of [shared_ringbuffer.h]: the descriptor ring with
    its two 32-bit cursors, the predicates [ring_empty] and [ring_full],
    and the operations [enqueue] and [dequeue].

    The C functions work on a ring through a pointer.  Here a function is a
    state transformer over the ring that also records, in program order,
    the stores it makes to the shared memory, its memory barriers and its
    log calls. *)

From Stdlib Require Import ZArith Lia String.
From stdpp Require Import base tactics option list gmap.

Local Open Scope Z_scope.

(** ** Data model *)

(** [buff_desc_t]: [uintptr_t encoded_addr], [unsigned int len],
    [void *cookie].  The fields hold the values of the C parameters they
    are assigned from, which have the same types, so no conversion takes
    place on the way in or out. *)
Record buff_desc_t : Type := Build_buff_desc {
  encoded_addr : Z;
  len : Z;
  cookie : Z
}.

(** [ring_buffer_t]: the array [buffers] of
    [CONFIG_LIB_SHARED_RINGBUFFER_DESC_COUNT] descriptors and the two
    [uint32_t] cursors. *)
Record ring_buffer_t : Type := Build_ring_buffer {
  buffers : list buff_desc_t;
  write_idx : Z;
  read_idx : Z
}.

(** Arithmetic on [uint32_t] wraps modulo 2^32. *)
Definition UINT32_RANGE : Z := 4294967296.

Definition uint32 (z : Z) : Z := z mod UINT32_RANGE.

(** Assignment to one member of a descriptor. *)
Definition set_encoded_addr (v : Z) (d : buff_desc_t) : buff_desc_t :=
  Build_buff_desc v (len d) (cookie d).

Definition set_len (v : Z) (d : buff_desc_t) : buff_desc_t :=
  Build_buff_desc (encoded_addr d) v (cookie d).

Definition set_cookie (v : Z) (d : buff_desc_t) : buff_desc_t :=
  Build_buff_desc (encoded_addr d) (len d) v.

(** ** Events of a call, in program order *)

Inductive zf_log_level : Type := ZF_LOG_ERROR | ZF_LOG_FATAL.

(** The places of the shared ring a call can store to. *)
Inductive location : Type :=
| at_encoded_addr (slot : Z)
| at_len (slot : Z)
| at_cookie (slot : Z)
| at_write_idx
| at_read_idx.

Inductive event : Type :=
| ev_store (l : location) (v : Z)
| ev_release
| ev_log (lvl : zf_log_level) (msg : string).

(** ** The monad of a call: ring state and event trace *)

Record outcome (A : Type) : Type := Outcome {
  value : A;
  ring_after : ring_buffer_t;
  trace : list event
}.
Arguments Outcome {A} _ _ _.
Arguments value {A} _.
Arguments ring_after {A} _.
Arguments trace {A} _.

Definition M (A : Type) : Type := ring_buffer_t → outcome A.

#[global] Instance M_ret : MRet M := λ A a ring, Outcome a ring [].

#[global] Instance M_bind : MBind M := λ A B k m ring,
  match m ring with
  | Outcome a ring1 t1 =>
      match k a ring1 with
      | Outcome b ring2 t2 => Outcome b ring2 (t1 ++ t2)
      end
  end.

(** Reading from the ring. *)
Definition gets {A : Type} (f : ring_buffer_t → A) : M A :=
  λ ring, Outcome (f ring) ring [].

(** Stores to the ring.  A slot index is always a cursor reduced modulo the
    slot count, hence inside the array. *)
Definition store_encoded_addr (slot v : Z) : M unit := λ ring,
  Outcome tt
    (Build_ring_buffer
       (alter (set_encoded_addr v) (Z.to_nat slot) (buffers ring))
       (write_idx ring) (read_idx ring))
    [ev_store (at_encoded_addr slot) v].

Definition store_len (slot v : Z) : M unit := λ ring,
  Outcome tt
    (Build_ring_buffer
       (alter (set_len v) (Z.to_nat slot) (buffers ring))
       (write_idx ring) (read_idx ring))
    [ev_store (at_len slot) v].

Definition store_cookie (slot v : Z) : M unit := λ ring,
  Outcome tt
    (Build_ring_buffer
       (alter (set_cookie v) (Z.to_nat slot) (buffers ring))
       (write_idx ring) (read_idx ring))
    [ev_store (at_cookie slot) v].

Definition store_write_idx (v : Z) : M unit := λ ring,
  Outcome tt (Build_ring_buffer (buffers ring) v (read_idx ring))
    [ev_store at_write_idx v].

Definition store_read_idx (v : Z) : M unit := λ ring,
  Outcome tt (Build_ring_buffer (buffers ring) (write_idx ring) v)
    [ev_store at_read_idx v].

(** Reading one member of [buffers[slot]]. *)
Definition load_member (f : buff_desc_t → Z) (slot : Z) : M Z :=
  gets (λ ring, from_option f 0 (buffers ring !! Z.to_nat slot)).

(** [THREAD_MEMORY_RELEASE()]: the release barrier, recorded at its place
    in the program order. *)
Definition THREAD_MEMORY_RELEASE : M unit :=
  λ ring, Outcome tt ring [ev_release].

(** [ZF_LOGE] and [ZF_LOGF]: a log record of severity error, or fatal. *)
Definition ZF_LOGE (msg : string) : M unit :=
  λ ring, Outcome tt ring [ev_log ZF_LOG_ERROR msg].

Definition ZF_LOGF (msg : string) : M unit :=
  λ ring, Outcome tt ring [ev_log ZF_LOG_FATAL msg].

(** Modelled from the spec: the macros [ZF_LOGE] and [ZF_LOGF] come from
    seL4's libutils, which is not part of this source tree.  The spec
    records that a full-ring enqueue is "logged as a routine error" and an
    empty-ring dequeue "as a fatal condition": a record of fatal severity
    ends the process, a record of error severity does not. *)
Definition process_terminating (e : event) : bool :=
  match e with
  | ev_log ZF_LOG_FATAL _ => true
  | _ => false
  end.

(** What the caller of a function sees: the returned value, unless the
    process was ended on the way. *)
Inductive observed (A : Type) : Type :=
| Returned (a : A)
| Terminated.
Arguments Returned {A} _.
Arguments Terminated {A}.

Definition observe {A : Type} (o : outcome A) : observed A :=
  if existsb process_terminating (trace o) then Terminated
  else Returned (value o).

(** ** The ring operations *)

(** The calls a client can make on one ring, and what comes back: the
    [int] result and, for [dequeue], the descriptor stored through the
    three out pointers ([None] when they are left untouched). *)
Inductive call : Type :=
| call_enqueue (buffer len cookie : Z)
| call_dequeue.

Inductive reply : Type :=
| reply_enqueue (ret : Z)
| reply_dequeue (ret : Z) (out : option buff_desc_t).

Section Ring.

(** The slot count, fixed by the build configuration. *)
Variable CONFIG_LIB_SHARED_RINGBUFFER_DESC_COUNT : Z.

(** [!((write_idx - read_idx) % COUNT)], the subtraction in [uint32_t]. *)
Definition ring_empty (ring : ring_buffer_t) : bool :=
  uint32 (write_idx ring - read_idx ring)
    mod CONFIG_LIB_SHARED_RINGBUFFER_DESC_COUNT =? 0.

(** [!((write_idx - read_idx + 1) % COUNT)]. *)
Definition ring_full (ring : ring_buffer_t) : bool :=
  uint32 (uint32 (write_idx ring - read_idx ring) + 1)
    mod CONFIG_LIB_SHARED_RINGBUFFER_DESC_COUNT =? 0.

(** [write_idx % COUNT] and [read_idx % COUNT]. *)
Definition write_slot (ring : ring_buffer_t) : Z :=
  write_idx ring mod CONFIG_LIB_SHARED_RINGBUFFER_DESC_COUNT.

Definition read_slot (ring : ring_buffer_t) : Z :=
  read_idx ring mod CONFIG_LIB_SHARED_RINGBUFFER_DESC_COUNT.

Definition enqueue (buffer len cookie : Z) : M Z :=
  full ← gets ring_full;
  if full : bool then
    ZF_LOGE "Ring full";;
    mret (-1)
  else
    i ← gets write_slot; store_encoded_addr i buffer;;
    i ← gets write_slot; store_len i len;;
    i ← gets write_slot; store_cookie i cookie;;
    w ← gets write_idx; store_write_idx (uint32 (w + 1));;
    THREAD_MEMORY_RELEASE;;
    mret 0.

Definition dequeue : M (Z * option buff_desc_t) :=
  empty ← gets ring_empty;
  if empty : bool then
    ZF_LOGF "Ring is empty";;
    mret (-1, None)
  else
    i ← gets read_slot; addr ← load_member encoded_addr i;
    i ← gets read_slot; len ← load_member len i;
    i ← gets read_slot; cookie ← load_member cookie i;
    THREAD_MEMORY_RELEASE;;
    r ← gets read_idx; store_read_idx (uint32 (r + 1));;
    mret (0, Some (Build_buff_desc addr len cookie)).

(** One call, and a sequence of calls, on one ring. *)
Definition step (c : call) : M reply :=
  match c with
  | call_enqueue buffer len cookie =>
      ret ← enqueue buffer len cookie; mret (reply_enqueue ret)
  | call_dequeue =>
      res ← dequeue; mret (reply_dequeue (fst res) (snd res))
  end.

Fixpoint run (cs : list call) : M (list reply) :=
  match cs with
  | [] => mret []
  | c :: cs' => r ← step c; rs ← run cs'; mret (r :: rs)
  end.

End Ring.

(** ** Rings, counts and the queue the ring stands for *)

(** Modelled from the spec: [ring_init] is only declared in the header, its
    body is not part of this source tree.  The spec says that "a Ring is
    zero-initialized (both cursors at 0)" before it is used; the slots may
    hold anything. *)
Definition zero_initialised (n : Z) (ring : ring_buffer_t) : Prop :=
  Z.of_nat (length (buffers ring)) = n ∧
  write_idx ring = 0 ∧ read_idx ring = 0.

(** The ring whose memory is all zero. *)
Definition ring_zero (n : Z) : ring_buffer_t :=
  Build_ring_buffer (replicate (Z.to_nat n) (Build_buff_desc 0 0 0)) 0 0.

(** The number of outstanding entries, as the code computes it: the
    difference of the cursors in [uint32_t]. *)
Definition outstanding (ring : ring_buffer_t) : Z :=
  uint32 (write_idx ring - read_idx ring).

(** What the C types and the protocol keep true of a ring: the array has
    the configured number of slots, the cursors are [uint32_t] values, and
    fewer than [n] entries are outstanding. *)
Definition ring_wf (n : Z) (ring : ring_buffer_t) : Prop :=
  Z.of_nat (length (buffers ring)) = n ∧
  0 <= write_idx ring < UINT32_RANGE ∧
  0 <= read_idx ring < UINT32_RANGE ∧
  outstanding ring < n.

(** The states a zero-initialised ring can be driven to by its two
    endpoints. *)
Definition reachable (n : Z) (ring : ring_buffer_t) : Prop :=
  ∃ ring0 cs, zero_initialised n ring0 ∧ ring_after (run n cs ring0) = ring.

(** Successful calls among the replies of a run. *)
Definition is_enqueued (r : reply) : Z :=
  match r with reply_enqueue 0 => 1 | _ => 0 end.

Definition is_dequeued (r : reply) : Z :=
  match r with reply_dequeue 0 _ => 1 | _ => 0 end.

Definition successful_enqueues (rs : list reply) : Z :=
  foldr (λ r acc, is_enqueued r + acc) 0 rs.

Definition successful_dequeues (rs : list reply) : Z :=
  foldr (λ r acc, is_dequeued r + acc) 0 rs.

(** The [int] a call returned. *)
Definition reply_ret (r : reply) : Z :=
  match r with
  | reply_enqueue ret => ret
  | reply_dequeue ret _ => ret
  end.

(** Successful enqueues not yet matched by a successful dequeue. *)
Definition unmatched (rs : list reply) : Z :=
  successful_enqueues rs - successful_dequeues rs.

(** The queue of the specification, in the spec's words: a FIFO of
    descriptors that holds at most [n - 1] of them; [enqueue] fails with
    Full, [dequeue] with Empty. *)
Definition fifo_step (n : Z) (c : call) (q : list buff_desc_t)
  : reply * list buff_desc_t :=
  match c with
  | call_enqueue buffer len cookie =>
      if Z.of_nat (length q) =? n - 1 then (reply_enqueue (-1), q)
      else (reply_enqueue 0, q ++ [Build_buff_desc buffer len cookie])
  | call_dequeue =>
      match q with
      | [] => (reply_dequeue (-1) None, q)
      | d :: q' => (reply_dequeue 0 (Some d), q')
      end
  end.

Fixpoint fifo_run (n : Z) (cs : list call) (q : list buff_desc_t)
  : list reply * list buff_desc_t :=
  match cs with
  | [] => ([], q)
  | c :: cs' =>
      let '(r, q1) := fifo_step n c q in
      let '(rs, q2) := fifo_run n cs' q1 in
      (r :: rs, q2)
  end.

(** [k] rounds of one enqueue followed by one dequeue. *)
Fixpoint cycles (k : nat) (buffer len cookie : Z) : list call :=
  match k with
  | O => []
  | S k' => call_enqueue buffer len cookie :: call_dequeue
            :: cycles k' buffer len cookie
  end.

(** One enqueue call for each descriptor of a list, in a row. *)
Definition enqueue_calls (ds : list buff_desc_t) : list call :=
  (λ d, call_enqueue (encoded_addr d) (len d) (cookie d)) <$> ds.

(** The ring after a successful [enqueue], and after a successful
    [dequeue]. *)
Definition enqueued_ring (n : Z) (buffer len cookie : Z)
    (ring : ring_buffer_t) : ring_buffer_t :=
  let i := Z.to_nat (write_slot n ring) in
  Build_ring_buffer
    (alter (set_cookie cookie) i
       (alter (set_len len) i
          (alter (set_encoded_addr buffer) i (buffers ring))))
    (uint32 (write_idx ring + 1)) (read_idx ring).

Definition dequeued_ring (ring : ring_buffer_t) : ring_buffer_t :=
  Build_ring_buffer (buffers ring) (write_idx ring)
    (uint32 (read_idx ring + 1)).

(** The ring holds the queue [q]: as many entries are outstanding as [q]
    is long, and the [i]-th of them sits in the slot of cursor
    [read_idx + i]. *)
Definition holds (n : Z) (ring : ring_buffer_t) (q : list buff_desc_t)
  : Prop :=
  outstanding ring = Z.of_nat (length q) ∧
  ∀ (i : nat) d, q !! i = Some d →
    buffers ring !! Z.to_nat (uint32 (read_idx ring + Z.of_nat i) mod n)
    = Some d.

(** The cursors of the outstanding entries reduce to their slots in step:
    either the slot count divides 2^32, so that reducing modulo [n]
    commutes with the 32-bit wrap, or the write cursor has not wrapped
    ahead of the read cursor. *)
Definition slots_in_step (n : Z) (ring : ring_buffer_t) : Prop :=
  (n | UINT32_RANGE) ∨ read_idx ring <= write_idx ring.

(** [k] dequeue calls in a row. *)
Definition dequeue_calls (k : nat) : list call := replicate k call_dequeue.

(** ** The ring handle and its four directed operations *)

(** [ring_handle_t]: pointers to the used and the available ring, and the
    function pointer of the notification.  The rings live in the shared
    memory, at the addresses the handle points to; two handles (one per
    endpoint) may point to the same rings, and the two pointers of one
    handle may coincide. *)
Record ring_handle_t : Type := Build_ring_handle {
  used_ring : Z;
  avail_ring : Z;
  notify_fn : Z
}.

(** The shared memory: the rings, by address. *)
Abbreviation shared_memory := (gmap Z ring_buffer_t).

(** Events of a call through a handle: an event of the ring at an address,
    or the call of a notification function. *)
Inductive handle_event : Type :=
| ev_ring (p : Z) (e : event)
| ev_call (fn : Z).

(** A ring function applied through a pointer.  There is no result where
    no ring lives at the address (the C behaviour is then undefined). *)
Definition through {A : Type} (p : Z) (m : M A) (mem : shared_memory)
  : option (A * shared_memory * list handle_event) :=
  match mem !! p with
  | Some ring =>
      match m ring with
      | Outcome a ring1 t => Some (a, <[p := ring1]> mem, ev_ring p <$> t)
      end
  | None => None
  end.

(** [ring->notify()]: the call of the registered function, which is
    outside this code. *)
Definition notify (h : ring_handle_t) (mem : shared_memory)
  : option (unit * shared_memory * list handle_event) :=
  Some (tt, mem, [ev_call (notify_fn h)]).

Definition enqueue_avail (n : Z) (h : ring_handle_t) (addr len cookie : Z) :=
  through (avail_ring h) (enqueue n addr len cookie).

Definition enqueue_used (n : Z) (h : ring_handle_t) (addr len cookie : Z) :=
  through (used_ring h) (enqueue n addr len cookie).

Definition dequeue_avail (n : Z) (h : ring_handle_t) :=
  through (avail_ring h) (dequeue n).

Definition dequeue_used (n : Z) (h : ring_handle_t) :=
  through (used_ring h) (dequeue n).

(** The calls of an endpoint through its handle. *)
Inductive handle_call : Type :=
| call_enqueue_avail (h : ring_handle_t) (addr len cookie : Z)
| call_enqueue_used (h : ring_handle_t) (addr len cookie : Z)
| call_dequeue_avail (h : ring_handle_t)
| call_dequeue_used (h : ring_handle_t).

Definition handle_step (n : Z) (c : handle_call) (mem : shared_memory)
  : option (reply * shared_memory) :=
  match c with
  | call_enqueue_avail h addr len cookie =>
      res ← enqueue_avail n h addr len cookie mem;
      Some (reply_enqueue res.1.1, res.1.2)
  | call_enqueue_used h addr len cookie =>
      res ← enqueue_used n h addr len cookie mem;
      Some (reply_enqueue res.1.1, res.1.2)
  | call_dequeue_avail h =>
      res ← dequeue_avail n h mem;
      Some (reply_dequeue res.1.1.1 res.1.1.2, res.1.2)
  | call_dequeue_used h =>
      res ← dequeue_used n h mem;
      Some (reply_dequeue res.1.1.1 res.1.1.2, res.1.2)
  end.

Fixpoint handle_run (n : Z) (cs : list handle_call) (mem : shared_memory)
  : option (list reply * shared_memory) :=
  match cs with
  | [] => Some ([], mem)
  | c :: cs' =>
      res ← handle_step n c mem;
      rest ← handle_run n cs' res.2;
      Some (res.1 :: rest.1, rest.2)
  end.

(** The ring a call goes to, and the call it makes there. *)
Definition target (c : handle_call) : Z :=
  match c with
  | call_enqueue_avail h _ _ _ | call_dequeue_avail h => avail_ring h
  | call_enqueue_used h _ _ _ | call_dequeue_used h => used_ring h
  end.

Definition ring_call (c : handle_call) : call :=
  match c with
  | call_enqueue_avail _ addr len cookie
  | call_enqueue_used _ addr len cookie => call_enqueue addr len cookie
  | call_dequeue_avail _ | call_dequeue_used _ => call_dequeue
  end.

(** One FIFO queue for each address, as the reference for the rings of a
    shared memory. *)
Definition queues_step (n : Z) (c : handle_call)
    (qs : gmap Z (list buff_desc_t))
  : option (reply * gmap Z (list buff_desc_t)) :=
  q ← qs !! target c;
  Some ((fifo_step n (ring_call c) q).1,
        <[target c := (fifo_step n (ring_call c) q).2]> qs).

Fixpoint queues_run (n : Z) (cs : list handle_call)
    (qs : gmap Z (list buff_desc_t))
  : option (list reply * gmap Z (list buff_desc_t)) :=
  match cs with
  | [] => Some ([], qs)
  | c :: cs' =>
      res ← queues_step n c qs;
      rest ← queues_run n cs' res.2;
      Some (res.1 :: rest.1, rest.2)
  end.

(** Every ring of the memory is well formed and holds the queue of its
    address. *)
Definition memory_holds (n : Z) (mem : shared_memory)
    (qs : gmap Z (list buff_desc_t)) : Prop :=
  ∀ p,
    match mem !! p, qs !! p with
    | Some ring, Some q => ring_wf n ring ∧ holds n ring q
    | None, None => True
    | _, _ => False
    end.

(** ** The operations, case by case *)

Lemma enqueue_full_eq n buffer len cookie ring :
  ring_full n ring = true →
  enqueue n buffer len cookie ring
  = Outcome (-1) ring [ev_log ZF_LOG_ERROR "Ring full"].
Proof.
  intros Hfull. unfold enqueue, mbind, M_bind, gets.
  rewrite Hfull. reflexivity.
Qed.

Lemma enqueue_ok_eq n buffer len cookie ring :
  ring_full n ring = false →
  enqueue n buffer len cookie ring
  = Outcome 0 (enqueued_ring n buffer len cookie ring)
      [ev_store (at_encoded_addr (write_slot n ring)) buffer;
       ev_store (at_len (write_slot n ring)) len;
       ev_store (at_cookie (write_slot n ring)) cookie;
       ev_store at_write_idx (uint32 (write_idx ring + 1));
       ev_release].
Proof.
  intros Hfull. unfold enqueue, mbind, M_bind, gets.
  rewrite Hfull. reflexivity.
Qed.

Lemma dequeue_empty_eq n ring :
  ring_empty n ring = true →
  dequeue n ring
  = Outcome (-1, None) ring [ev_log ZF_LOG_FATAL "Ring is empty"].
Proof.
  intros Hempty. unfold dequeue, mbind, M_bind, gets.
  rewrite Hempty. reflexivity.
Qed.

Lemma dequeue_ok_eq n ring :
  ring_empty n ring = false →
  dequeue n ring
  = Outcome
      (0, Some (Build_buff_desc
                  (from_option encoded_addr 0
                     (buffers ring !! Z.to_nat (read_slot n ring)))
                  (from_option len 0
                     (buffers ring !! Z.to_nat (read_slot n ring)))
                  (from_option cookie 0
                     (buffers ring !! Z.to_nat (read_slot n ring)))))
      (dequeued_ring ring)
      [ev_release; ev_store at_read_idx (uint32 (read_idx ring + 1))].
Proof.
  intros Hempty. unfold dequeue, mbind, M_bind, load_member, gets.
  rewrite Hempty. reflexivity.
Qed.

(** ** Arithmetic of the 32-bit cursors *)

Lemma uint32_range z : 0 <= uint32 z < UINT32_RANGE.
Proof. unfold uint32, UINT32_RANGE. apply Z.mod_pos_bound. lia. Qed.

Lemma uint32_small z : 0 <= z < UINT32_RANGE → uint32 z = z.
Proof. intros Hz. unfold uint32. by apply Z.mod_small. Qed.

Lemma uint32_succ_minus w r :
  uint32 (uint32 (w + 1) - r) = uint32 (uint32 (w - r) + 1).
Proof.
  unfold uint32. rewrite Zminus_mod_idemp_l, Zplus_mod_idemp_l.
  f_equal. lia.
Qed.

Lemma uint32_minus_succ w r :
  uint32 (w - uint32 (r + 1)) = uint32 (uint32 (w - r) - 1).
Proof.
  unfold uint32. rewrite Zminus_mod_idemp_r, Zminus_mod_idemp_l.
  f_equal. lia.
Qed.

Lemma outstanding_range ring : 0 <= outstanding ring < UINT32_RANGE.
Proof. apply uint32_range. Qed.

(** ** The predicates against the number of outstanding entries *)

Lemma ring_empty_outstanding n ring :
  0 < n → outstanding ring < n →
  ring_empty n ring = true ↔ outstanding ring = 0.
Proof.
  intros Hn Hc. pose proof (outstanding_range ring) as Hr.
  unfold ring_empty. fold (outstanding ring).
  rewrite Z.mod_small by lia. apply Z.eqb_eq.
Qed.

Lemma ring_full_outstanding n ring :
  0 < n < UINT32_RANGE → outstanding ring < n →
  ring_full n ring = true ↔ outstanding ring = n - 1.
Proof.
  intros Hn Hc. pose proof (outstanding_range ring) as Hr.
  unfold ring_full. fold (outstanding ring).
  rewrite (uint32_small (outstanding ring + 1)) by lia.
  rewrite Z.eqb_eq.
  destruct (decide (outstanding ring = n - 1)) as [Heq|Hne].
  - rewrite Heq. replace (n - 1 + 1) with n by lia.
    rewrite Z_mod_same_full. tauto.
  - rewrite Z.mod_small by lia. lia.
Qed.

Lemma outstanding_enqueued n buffer len cookie ring :
  outstanding (enqueued_ring n buffer len cookie ring)
  = uint32 (outstanding ring + 1).
Proof. unfold outstanding, enqueued_ring. cbn. apply uint32_succ_minus. Qed.

Lemma outstanding_dequeued ring :
  outstanding (dequeued_ring ring) = uint32 (outstanding ring - 1).
Proof. unfold outstanding, dequeued_ring. cbn. apply uint32_minus_succ. Qed.

Lemma length_enqueued n buffer len cookie ring :
  length (buffers (enqueued_ring n buffer len cookie ring))
  = length (buffers ring).
Proof. unfold enqueued_ring. cbn. by rewrite !length_alter. Qed.

(** ** One call keeps the ring well formed *)

Lemma enqueued_ring_wf n buffer len cookie ring :
  0 < n < UINT32_RANGE → ring_wf n ring → ring_full n ring = false →
  ring_wf n (enqueued_ring n buffer len cookie ring) ∧
  outstanding (enqueued_ring n buffer len cookie ring)
  = outstanding ring + 1.
Proof.
  intros Hn (Hlen & Hw & Hr & Hc) Hfull.
  pose proof (outstanding_range ring) as Ho.
  assert (outstanding ring ≠ n - 1) as Hne.
  { intros Heq. apply (ring_full_outstanding n ring Hn Hc) in Heq.
    congruence. }
  assert (outstanding (enqueued_ring n buffer len cookie ring)
          = outstanding ring + 1) as Hout.
  { rewrite outstanding_enqueued. apply uint32_small. lia. }
  split; [|done].
  split; [by rewrite length_enqueued|].
  split; [apply uint32_range|].
  split; [done|]. lia.
Qed.

Lemma dequeued_ring_wf n ring :
  0 < n < UINT32_RANGE → ring_wf n ring → ring_empty n ring = false →
  ring_wf n (dequeued_ring ring) ∧
  outstanding (dequeued_ring ring) = outstanding ring - 1.
Proof.
  intros Hn (Hlen & Hw & Hr & Hc) Hempty.
  pose proof (outstanding_range ring) as Ho.
  assert (outstanding ring ≠ 0) as Hne.
  { intros Heq. apply (ring_empty_outstanding n ring) in Heq; [|lia|done].
    congruence. }
  assert (outstanding (dequeued_ring ring) = outstanding ring - 1) as Hout.
  { rewrite outstanding_dequeued. apply uint32_small. lia. }
  split; [|done].
  split; [done|]. split; [done|].
  split; [apply uint32_range|]. lia.
Qed.

(** ** Calls and runs *)

Lemma step_enqueue n buffer len cookie ring :
  step n (call_enqueue buffer len cookie) ring
  = Outcome (reply_enqueue (value (enqueue n buffer len cookie ring)))
      (ring_after (enqueue n buffer len cookie ring))
      (trace (enqueue n buffer len cookie ring) ++ []).
Proof.
  unfold step, mbind, M_bind.
  by destruct (enqueue n buffer len cookie ring).
Qed.

Lemma step_dequeue n ring :
  step n call_dequeue ring
  = Outcome (reply_dequeue (fst (value (dequeue n ring)))
               (snd (value (dequeue n ring))))
      (ring_after (dequeue n ring)) (trace (dequeue n ring) ++ []).
Proof.
  unfold step, mbind, M_bind. by destruct (dequeue n ring).
Qed.

Lemma run_cons n c cs ring :
  run n (c :: cs) ring
  = Outcome
      (value (step n c ring)
         :: value (run n cs (ring_after (step n c ring))))
      (ring_after (run n cs (ring_after (step n c ring))))
      (trace (step n c ring)
         ++ trace (run n cs (ring_after (step n c ring))) ++ []).
Proof.
  cbn [run]. unfold mbind, M_bind.
  destruct (step n c ring) as [r ring1 t1]. cbn [value ring_after trace].
  by destruct (run n cs ring1).
Qed.

Lemma run_cons_value n c cs ring :
  value (run n (c :: cs) ring)
  = value (step n c ring) :: value (run n cs (ring_after (step n c ring))).
Proof. by rewrite run_cons. Qed.

Lemma run_cons_ring n c cs ring :
  ring_after (run n (c :: cs) ring)
  = ring_after (run n cs (ring_after (step n c ring))).
Proof. by rewrite run_cons. Qed.

Lemma run_app_value n cs1 cs2 ring :
  value (run n (cs1 ++ cs2) ring)
  = value (run n cs1 ring)
    ++ value (run n cs2 (ring_after (run n cs1 ring))).
Proof.
  revert ring. induction cs1 as [|c cs1 IH]; intros ring; [done|].
  rewrite <- app_comm_cons, !run_cons_value, run_cons_ring, IH. done.
Qed.

Lemma run_app_ring n cs1 cs2 ring :
  ring_after (run n (cs1 ++ cs2) ring)
  = ring_after (run n cs2 (ring_after (run n cs1 ring))).
Proof.
  revert ring. induction cs1 as [|c cs1 IH]; intros ring; [done|].
  rewrite <- app_comm_cons, !run_cons_ring, IH. done.
Qed.

Lemma unmatched_cons r rs :
  unmatched (r :: rs) = is_enqueued r - is_dequeued r + unmatched rs.
Proof.
  unfold unmatched, successful_enqueues, successful_dequeues.
  cbn [foldr]. lia.
Qed.

Lemma unmatched_app rs1 rs2 :
  unmatched (rs1 ++ rs2) = unmatched rs1 + unmatched rs2.
Proof.
  induction rs1 as [|r rs1 IH]; [reflexivity|].
  rewrite <- app_comm_cons, !unmatched_cons, IH. lia.
Qed.

(** A call keeps the ring well formed and moves the number of outstanding
    entries by what its reply says. *)
Lemma step_wf n c ring :
  0 < n < UINT32_RANGE → ring_wf n ring →
  ring_wf n (ring_after (step n c ring)) ∧
  outstanding (ring_after (step n c ring))
  = outstanding ring + is_enqueued (value (step n c ring))
    - is_dequeued (value (step n c ring)).
Proof.
  intros Hn Hwf. destruct c as [buffer len cookie|].
  - rewrite step_enqueue. cbn [value ring_after].
    destruct (ring_full n ring) eqn:Hfull.
    + rewrite enqueue_full_eq by done. cbn. split; [done|lia].
    + rewrite enqueue_ok_eq by done. cbn [value ring_after is_enqueued
        is_dequeued].
      destruct (enqueued_ring_wf n buffer len cookie ring) as [? ->]; try done.
      split; [done|lia].
  - rewrite step_dequeue. cbn [value ring_after].
    destruct (ring_empty n ring) eqn:Hempty.
    + rewrite dequeue_empty_eq by done. cbn. split; [done|lia].
    + rewrite dequeue_ok_eq by done. cbn [value ring_after fst snd
        is_enqueued is_dequeued].
      destruct (dequeued_ring_wf n ring) as [? ->]; try done.
      split; [done|lia].
Qed.

Lemma run_wf n cs ring :
  0 < n < UINT32_RANGE → ring_wf n ring →
  ring_wf n (ring_after (run n cs ring)) ∧
  outstanding (ring_after (run n cs ring))
  = outstanding ring + unmatched (value (run n cs ring)).
Proof.
  intros Hn. revert ring. induction cs as [|c cs IH]; intros ring Hwf.
  - cbn. split; [done|]. unfold unmatched. cbn. lia.
  - rewrite run_cons_ring, run_cons_value, unmatched_cons.
    destruct (step_wf n c ring Hn Hwf) as [Hwf1 Hout1].
    destruct (IH _ Hwf1) as [Hwf2 Hout2].
    split; [done|]. rewrite Hout2, Hout1. lia.
Qed.

Lemma zero_initialised_wf n ring :
  0 < n → zero_initialised n ring → ring_wf n ring ∧ outstanding ring = 0.
Proof.
  intros Hn (Hlen & Hw & Hr).
  assert (outstanding ring = 0) as Hz.
  { unfold outstanding. rewrite Hw, Hr. reflexivity. }
  split; [|done].
  unfold ring_wf, UINT32_RANGE. rewrite Hw, Hr, Hz. lia.
Qed.

Lemma ring_zero_initialised n : 0 <= n → zero_initialised n (ring_zero n).
Proof.
  intros Hn. unfold zero_initialised, ring_zero. cbn.
  rewrite length_replicate. lia.
Qed.

Lemma reachable_wf n ring :
  0 < n < UINT32_RANGE → reachable n ring → ring_wf n ring.
Proof.
  intros Hn (ring0 & cs & Hzero & <-).
  apply run_wf; [done|]. apply zero_initialised_wf; [lia|done].
Qed.

(** ** Empty and full against the unmatched enqueues *)

(** C2: in every run from a zero-initialised ring, [ring_empty] holds
    exactly when no successful enqueue is left unmatched by a successful
    dequeue, and [ring_full] exactly when [n - 1] of them are. *)
Theorem predicates_track_unmatched n cs ring0 :
  0 < n < UINT32_RANGE → zero_initialised n ring0 →
  (ring_empty n (ring_after (run n cs ring0)) = true
   ↔ unmatched (value (run n cs ring0)) = 0) ∧
  (ring_full n (ring_after (run n cs ring0)) = true
   ↔ unmatched (value (run n cs ring0)) = n - 1).
Proof.
  intros Hn Hzero.
  destruct (zero_initialised_wf n ring0) as [Hwf0 Hout0]; [lia|done|].
  destruct (run_wf n cs ring0 Hn Hwf0) as [Hwf Hout].
  rewrite Hout0, Z.add_0_l in Hout. rewrite <- Hout.
  destruct Hwf as (_ & _ & _ & Hc). split.
  - apply ring_empty_outstanding; [lia|done].
  - by apply ring_full_outstanding.
Qed.

Lemma predicates_track_unmatched_witness :
  let cs := [call_enqueue 4096 64 1; call_enqueue 8192 64 2; call_dequeue] in
  0 < 3 < UINT32_RANGE ∧ zero_initialised 3 (ring_zero 3) ∧
  (ring_empty 3 (ring_after (run 3 cs (ring_zero 3))) = true
   ↔ unmatched (value (run 3 cs (ring_zero 3))) = 0) ∧
  (ring_full 3 (ring_after (run 3 cs (ring_zero 3))) = true
   ↔ unmatched (value (run 3 cs (ring_zero 3))) = 3 - 1).
Proof.
  intros cs.
  assert (0 < 3 < UINT32_RANGE) as Hn by (unfold UINT32_RANGE; lia).
  assert (zero_initialised 3 (ring_zero 3)) as Hzero
    by (apply ring_zero_initialised; lia).
  split; [exact Hn|]. split; [exact Hzero|].
  exact (predicates_track_unmatched 3 cs (ring_zero 3) Hn Hzero).
Defined.

(** C9: on a ring with at least two slots, no state reachable from a
    zero-initialised ring is both empty and full. *)
Theorem empty_full_exclusive n ring :
  2 <= n < UINT32_RANGE → reachable n ring →
  ¬ (ring_empty n ring = true ∧ ring_full n ring = true).
Proof.
  intros Hn Hreach [Hempty Hfull].
  destruct (reachable_wf n ring) as (_ & _ & _ & Hc); [lia|done|].
  apply ring_empty_outstanding in Hempty; [|lia|done].
  apply ring_full_outstanding in Hfull; [|lia|done].
  lia.
Qed.

Lemma empty_full_exclusive_witness :
  let ring := ring_after (run 2 [call_enqueue 4096 64 1] (ring_zero 2)) in
  2 <= 2 < UINT32_RANGE ∧ reachable 2 ring ∧
  ¬ (ring_empty 2 ring = true ∧ ring_full 2 ring = true).
Proof.
  intros ring.
  assert (2 <= 2 < UINT32_RANGE) as Hn by (unfold UINT32_RANGE; lia).
  assert (reachable 2 ring) as Hreach.
  { exists (ring_zero 2), [call_enqueue 4096 64 1].
    split; [apply ring_zero_initialised; lia|reflexivity]. }
  split; [exact Hn|]. split; [exact Hreach|].
  exact (empty_full_exclusive 2 ring Hn Hreach).
Defined.

(** ** What one call does to the ring *)

Lemma write_slot_in_range n ring :
  0 < n → Z.of_nat (length (buffers ring)) = n →
  (Z.to_nat (write_slot n ring) < length (buffers ring))%nat.
Proof.
  intros Hn Hlen. unfold write_slot.
  pose proof (Z.mod_pos_bound (write_idx ring) n Hn). lia.
Qed.

Lemma enqueued_ring_lookup n buffer len cookie ring :
  0 < n → Z.of_nat (length (buffers ring)) = n →
  buffers (enqueued_ring n buffer len cookie ring)
    !! Z.to_nat (write_slot n ring)
  = Some (Build_buff_desc buffer len cookie).
Proof.
  intros Hn Hlen.
  destruct (lookup_lt_is_Some_2 (buffers ring) (Z.to_nat (write_slot n ring)))
    as [d Hd]; [by apply write_slot_in_range|].
  unfold enqueued_ring. cbn. rewrite !list_lookup_alter_eq, Hd. reflexivity.
Qed.

Lemma enqueued_ring_lookup_ne n buffer len cookie ring (j : nat) :
  j ≠ Z.to_nat (write_slot n ring) →
  buffers (enqueued_ring n buffer len cookie ring) !! j = buffers ring !! j.
Proof.
  intros Hj. unfold enqueued_ring. cbn.
  by rewrite !list_lookup_alter_ne.
Qed.

Lemma enqueue_success_not_full n buffer len cookie ring :
  value (enqueue n buffer len cookie ring) = 0 → ring_full n ring = false.
Proof.
  intros Hret. destruct (ring_full n ring) eqn:Hfull; [|done].
  rewrite enqueue_full_eq in Hret by done. discriminate Hret.
Qed.

Lemma dequeue_success_not_empty n ring :
  fst (value (dequeue n ring)) = 0 → ring_empty n ring = false.
Proof.
  intros Hret. destruct (ring_empty n ring) eqn:Hempty; [|done].
  rewrite dequeue_empty_eq in Hret by done. discriminate Hret.
Qed.

Lemma uint32_step w : uint32 (uint32 (w + 1) - w) = 1.
Proof.
  rewrite uint32_succ_minus. replace (w - w) with 0 by lia. reflexivity.
Qed.

(** C6: on a ring that is not full, [enqueue] returns 0, leaves the three
    values in slot [write_idx % n] and advances [write_idx] by one (in
    [uint32_t]); on a full ring it returns -1, makes no store, and leaves
    the slots and [write_idx] as they were. *)
Theorem enqueue_writes_then_advances n buffer len cookie ring :
  0 < n → Z.of_nat (length (buffers ring)) = n →
  (ring_full n ring = false →
   value (enqueue n buffer len cookie ring) = 0 ∧
   buffers (ring_after (enqueue n buffer len cookie ring))
     !! Z.to_nat (write_idx ring mod n)
   = Some (Build_buff_desc buffer len cookie) ∧
   write_idx (ring_after (enqueue n buffer len cookie ring))
   = uint32 (write_idx ring + 1) ∧
   uint32 (write_idx (ring_after (enqueue n buffer len cookie ring))
           - write_idx ring) = 1) ∧
  (ring_full n ring = true →
   value (enqueue n buffer len cookie ring) = -1 ∧
   buffers (ring_after (enqueue n buffer len cookie ring)) = buffers ring ∧
   write_idx (ring_after (enqueue n buffer len cookie ring))
   = write_idx ring ∧
   trace (enqueue n buffer len cookie ring)
   = [ev_log ZF_LOG_ERROR "Ring full"]).
Proof.
  intros Hn Hlen. split; intros Hfull.
  - rewrite enqueue_ok_eq by done. cbn [value ring_after].
    split; [done|]. split; [by apply enqueued_ring_lookup|].
    split; [done|]. cbn. apply uint32_step.
  - rewrite enqueue_full_eq by done. done.
Qed.

Lemma enqueue_writes_then_advances_witness :
  let ring := Build_ring_buffer (replicate 4 (Build_buff_desc 0 0 0)) 6 5 in
  0 < 4 ∧ Z.of_nat (length (buffers ring)) = 4 ∧
  ring_full 4 ring = false ∧
  value (enqueue 4 4096 64 7 ring) = 0 ∧
  buffers (ring_after (enqueue 4 4096 64 7 ring)) !! Z.to_nat (6 mod 4)
  = Some (Build_buff_desc 4096 64 7) ∧
  write_idx (ring_after (enqueue 4 4096 64 7 ring)) = uint32 (6 + 1) ∧
  uint32 (write_idx (ring_after (enqueue 4 4096 64 7 ring)) - 6) = 1.
Proof.
  intros ring.
  assert (0 < 4) as Hn by lia.
  assert (Z.of_nat (length (buffers ring)) = 4) as Hlen by reflexivity.
  assert (ring_full 4 ring = false) as Hfull by reflexivity.
  split; [exact Hn|]. split; [exact Hlen|]. split; [exact Hfull|].
  exact (proj1 (enqueue_writes_then_advances 4 4096 64 7 ring Hn Hlen) Hfull).
Defined.

(** C10: a successful [enqueue] leaves [read_idx] and every slot other
    than [write_idx % n] as they were; a successful [dequeue] leaves
    [write_idx] and every slot as they were and moves only [read_idx]. *)
Theorem successful_calls_frame n ring :
  (∀ buffer len cookie,
     value (enqueue n buffer len cookie ring) = 0 →
     read_idx (ring_after (enqueue n buffer len cookie ring))
     = read_idx ring ∧
     length (buffers (ring_after (enqueue n buffer len cookie ring)))
     = length (buffers ring) ∧
     ∀ j : nat, j ≠ Z.to_nat (write_idx ring mod n) →
       buffers (ring_after (enqueue n buffer len cookie ring)) !! j
       = buffers ring !! j) ∧
  (fst (value (dequeue n ring)) = 0 →
   write_idx (ring_after (dequeue n ring)) = write_idx ring ∧
   buffers (ring_after (dequeue n ring)) = buffers ring ∧
   read_idx (ring_after (dequeue n ring)) = uint32 (read_idx ring + 1)).
Proof.
  split.
  - intros buffer len cookie Hret.
    apply enqueue_success_not_full in Hret.
    rewrite enqueue_ok_eq by done. cbn [ring_after].
    split; [done|]. split; [apply length_enqueued|].
    intros j Hj. by apply enqueued_ring_lookup_ne.
  - intros Hret. apply dequeue_success_not_empty in Hret.
    rewrite dequeue_ok_eq by done. done.
Qed.

Lemma successful_calls_frame_witness :
  let ring :=
    Build_ring_buffer
      [Build_buff_desc 1 2 3; Build_buff_desc 4 5 6; Build_buff_desc 7 8 9]
      4 3 in
  value (enqueue 3 4096 64 7 ring) = 0 ∧
  fst (value (dequeue 3 ring)) = 0 ∧
  read_idx (ring_after (enqueue 3 4096 64 7 ring)) = 3 ∧
  buffers (ring_after (enqueue 3 4096 64 7 ring)) !! 0%nat
  = Some (Build_buff_desc 1 2 3) ∧
  write_idx (ring_after (dequeue 3 ring)) = 4 ∧
  buffers (ring_after (dequeue 3 ring)) = buffers ring.
Proof.
  intros ring.
  assert (value (enqueue 3 4096 64 7 ring) = 0) as Henq by reflexivity.
  assert (fst (value (dequeue 3 ring)) = 0) as Hdeq by reflexivity.
  destruct (successful_calls_frame 3 ring) as [Hframe_enq Hframe_deq].
  destruct (Hframe_enq 4096 64 7 Henq) as (Hr & _ & Hslots).
  destruct (Hframe_deq Hdeq) as (Hw & Hbufs & _).
  split; [exact Henq|]. split; [exact Hdeq|]. split; [exact Hr|].
  split; [exact (Hslots 0%nat ltac:(discriminate))|].
  split; [exact Hw|exact Hbufs].
Defined.

(** C8: a call either completes or changes nothing.  [dequeue] on an empty
    ring (a zero-initialised one included) returns -1 and leaves both
    cursors and every slot as they were, and so does [enqueue] on a full
    ring; any other call returns 0 with its whole update made. *)
Theorem calls_complete_or_change_nothing n ring :
  (∀ buffer len cookie,
     (ring_full n ring = true →
      value (enqueue n buffer len cookie ring) = -1 ∧
      ring_after (enqueue n buffer len cookie ring) = ring) ∧
     (ring_full n ring = false →
      value (enqueue n buffer len cookie ring) = 0 ∧
      ring_after (enqueue n buffer len cookie ring)
      = enqueued_ring n buffer len cookie ring)) ∧
  (ring_empty n ring = true →
   value (dequeue n ring) = (-1, None) ∧
   ring_after (dequeue n ring) = ring) ∧
  (ring_empty n ring = false →
   fst (value (dequeue n ring)) = 0 ∧
   ring_after (dequeue n ring) = dequeued_ring ring) ∧
  (zero_initialised n ring →
   value (dequeue n ring) = (-1, None) ∧
   ring_after (dequeue n ring) = ring).
Proof.
  split; [|split; [|split]].
  - intros buffer len cookie. split; intros Hfull.
    + by rewrite enqueue_full_eq.
    + by rewrite enqueue_ok_eq.
  - intros Hempty. by rewrite dequeue_empty_eq.
  - intros Hempty. by rewrite dequeue_ok_eq.
  - intros (_ & Hw & Hr).
    assert (ring_empty n ring = true) as Hempty.
    { unfold ring_empty. rewrite Hw, Hr.
      change (uint32 (0 - 0)) with 0. by rewrite Zmod_0_l. }
    by rewrite dequeue_empty_eq.
Qed.

Lemma calls_complete_or_change_nothing_witness :
  let full :=
    Build_ring_buffer
      [Build_buff_desc 1 2 3; Build_buff_desc 4 5 6; Build_buff_desc 0 0 0]
      2 0 in
  ring_full 3 full = true ∧
  value (enqueue 3 4096 64 7 full) = -1 ∧
  ring_after (enqueue 3 4096 64 7 full) = full ∧
  zero_initialised 4 (ring_zero 4) ∧
  value (dequeue 4 (ring_zero 4)) = (-1, None) ∧
  ring_after (dequeue 4 (ring_zero 4)) = ring_zero 4.
Proof.
  intros full.
  assert (ring_full 3 full = true) as Hfull by reflexivity.
  assert (zero_initialised 4 (ring_zero 4)) as Hzero
    by (apply ring_zero_initialised; lia).
  destruct (calls_complete_or_change_nothing 3 full) as [Henq _].
  destruct (proj1 (Henq 4096 64 7) Hfull) as [Hret Hring].
  destruct (calls_complete_or_change_nothing 4 (ring_zero 4))
    as (_ & _ & _ & Hdeq).
  destruct (Hdeq Hzero) as [Hret' Hring'].
  split; [exact Hfull|]. split; [exact Hret|]. split; [exact Hring|].
  split; [exact Hzero|]. split; [exact Hret'|exact Hring'].
Defined.

(** ** Capacity *)

Lemma step_enqueue_full n buffer len cookie ring :
  ring_full n ring = true →
  value (step n (call_enqueue buffer len cookie) ring) = reply_enqueue (-1) ∧
  ring_after (step n (call_enqueue buffer len cookie) ring) = ring.
Proof. intros Hfull. rewrite step_enqueue, enqueue_full_eq by done. done. Qed.

Lemma step_enqueue_ok n buffer len cookie ring :
  ring_full n ring = false →
  value (step n (call_enqueue buffer len cookie) ring) = reply_enqueue 0 ∧
  ring_after (step n (call_enqueue buffer len cookie) ring)
  = enqueued_ring n buffer len cookie ring.
Proof. intros Hfull. rewrite step_enqueue, enqueue_ok_eq by done. done. Qed.

Lemma step_dequeue_empty n ring :
  ring_empty n ring = true →
  value (step n call_dequeue ring) = reply_dequeue (-1) None ∧
  ring_after (step n call_dequeue ring) = ring.
Proof. intros Hempty. rewrite step_dequeue, dequeue_empty_eq by done. done. Qed.

Lemma step_dequeue_ok n ring :
  ring_empty n ring = false →
  reply_ret (value (step n call_dequeue ring)) = 0 ∧
  ring_after (step n call_dequeue ring) = dequeued_ring ring.
Proof. intros Hempty. rewrite step_dequeue, dequeue_ok_eq by done. done. Qed.

Lemma not_full_outstanding n ring :
  0 < n < UINT32_RANGE → outstanding ring < n - 1 →
  ring_full n ring = false.
Proof.
  intros Hn Hc. destruct (ring_full n ring) eqn:Hfull; [|done].
  apply ring_full_outstanding in Hfull; lia.
Qed.

Lemma not_empty_outstanding n ring :
  0 < n → 0 < outstanding ring < n → ring_empty n ring = false.
Proof.
  intros Hn Hc. destruct (ring_empty n ring) eqn:Hempty; [|done].
  apply ring_empty_outstanding in Hempty; lia.
Qed.

(** As long as fewer than [n - 1] entries are outstanding, every enqueue of
    a row succeeds. *)
Lemma run_enqueue_calls n ds ring :
  0 < n < UINT32_RANGE → ring_wf n ring →
  outstanding ring + Z.of_nat (length ds) <= n - 1 →
  value (run n (enqueue_calls ds) ring)
  = replicate (length ds) (reply_enqueue 0) ∧
  ring_wf n (ring_after (run n (enqueue_calls ds) ring)) ∧
  outstanding (ring_after (run n (enqueue_calls ds) ring))
  = outstanding ring + Z.of_nat (length ds).
Proof.
  intros Hn. revert ring. induction ds as [|d ds IH]; intros ring Hwf Hroom.
  - cbn. split; [done|]. split; [done|lia].
  - cbn [length] in Hroom.
    assert (ring_full n ring = false) as Hfull
      by (apply not_full_outstanding; [done|lia]).
    destruct (step_enqueue_ok n (encoded_addr d) (len d) (cookie d) ring Hfull)
      as [Hval Hring].
    destruct (enqueued_ring_wf n (encoded_addr d) (len d) (cookie d) ring)
      as [Hwf1 Hout1]; try done.
    change (enqueue_calls (d :: ds))
      with (call_enqueue (encoded_addr d) (len d) (cookie d)
            :: enqueue_calls ds).
    rewrite run_cons_value, run_cons_ring, Hval, Hring.
    destruct (IH _ Hwf1) as (Hvals & Hwf2 & Hout2); [lia|].
    rewrite Hvals, Hout2, Hout1. cbn [length replicate].
    split; [done|]. split; [done|lia].
Qed.

(** C3: from an empty ring with [n] slots, [n - 1] enqueues in a row
    return 0 and the [n]-th returns -1; after one dequeue, which succeeds,
    one more enqueue returns 0 and the next one -1. *)
Theorem capacity_boundary n ring ds b1 l1 k1 b2 l2 k2 b3 l3 k3 :
  2 <= n < UINT32_RANGE → ring_wf n ring → ring_empty n ring = true →
  Z.of_nat (length ds) = n - 1 →
  reply_ret <$>
    value (run n (enqueue_calls ds
                  ++ [call_enqueue b1 l1 k1; call_dequeue;
                      call_enqueue b2 l2 k2; call_enqueue b3 l3 k3]) ring)
  = replicate (Z.to_nat (n - 1)) 0 ++ [-1; 0; 0; -1].
Proof.
  intros Hn Hwf Hempty Hlen.
  assert (outstanding ring = 0) as Hout0.
  { destruct Hwf as (_ & _ & _ & Hc).
    apply ring_empty_outstanding in Hempty; [done|lia|done]. }
  destruct (run_enqueue_calls n ds ring) as (Hvals & Hwf1 & Hout1);
    [lia|done|lia|].
  rewrite run_app_value, Hvals.
  set (r1 := ring_after (run n (enqueue_calls ds) ring)) in *.
  rewrite Hout0, Hlen, Z.add_0_l in Hout1.
  (* the n-th enqueue *)
  assert (ring_full n r1 = true) as Hfull1.
  { apply ring_full_outstanding; [lia| |done]. destruct Hwf1; lia. }
  destruct (step_enqueue_full n b1 l1 k1 r1 Hfull1) as [Hv1 Hr1].
  (* the dequeue *)
  assert (ring_empty n r1 = false) as Hempty1
    by (apply not_empty_outstanding; lia).
  destruct (step_dequeue_ok n r1 Hempty1) as [Hv2 Hr2].
  destruct (dequeued_ring_wf n r1) as [Hwf2 Hout2]; [lia|done|done|].
  set (r2 := dequeued_ring r1) in *.
  (* one more enqueue *)
  assert (ring_full n r2 = false) as Hfull2
    by (apply not_full_outstanding; lia).
  destruct (step_enqueue_ok n b2 l2 k2 r2 Hfull2) as [Hv3 Hr3].
  destruct (enqueued_ring_wf n b2 l2 k2 r2) as [Hwf3 Hout3]; [lia|done|done|].
  set (r3 := enqueued_ring n b2 l2 k2 r2) in *.
  (* and the next one *)
  assert (ring_full n r3 = true) as Hfull3.
  { apply ring_full_outstanding; [lia| |lia]. destruct Hwf3; lia. }
  destruct (step_enqueue_full n b3 l3 k3 r3 Hfull3) as [Hv4 _].
  rewrite !run_cons_value, !Hr1, Hv1, !Hr2, !Hr3, Hv3, Hv4.
  rewrite fmap_app, fmap_replicate. cbn [fmap list_fmap reply_ret].
  rewrite Hv2. f_equal. f_equal. lia.
Qed.

Lemma capacity_boundary_witness :
  let ds := [Build_buff_desc 1 2 3; Build_buff_desc 4 5 6;
             Build_buff_desc 7 8 9] in
  2 <= 4 < UINT32_RANGE ∧ ring_wf 4 (ring_zero 4) ∧
  ring_empty 4 (ring_zero 4) = true ∧ Z.of_nat (length ds) = 4 - 1 ∧
  reply_ret <$>
    value (run 4 (enqueue_calls ds
                  ++ [call_enqueue 10 11 12; call_dequeue;
                      call_enqueue 13 14 15; call_enqueue 16 17 18])
             (ring_zero 4))
  = replicate (Z.to_nat (4 - 1)) 0 ++ [-1; 0; 0; -1].
Proof.
  intros ds.
  assert (2 <= 4 < UINT32_RANGE) as Hn by (unfold UINT32_RANGE; lia).
  assert (ring_wf 4 (ring_zero 4)) as Hwf
    by (apply zero_initialised_wf; [lia|apply ring_zero_initialised; lia]).
  assert (ring_empty 4 (ring_zero 4) = true) as Hempty by reflexivity.
  assert (Z.of_nat (length ds) = 4 - 1) as Hlen by reflexivity.
  split; [exact Hn|]. split; [exact Hwf|]. split; [exact Hempty|].
  split; [exact Hlen|].
  exact (capacity_boundary 4 (ring_zero 4) ds 10 11 12 13 14 15 16 17 18
           Hn Hwf Hempty Hlen).
Defined.

(** ** The cursors against the totals of a run *)

Lemma uint32_uint32_succ z : uint32 (uint32 z + 1) = uint32 (z + 1).
Proof. unfold uint32. by rewrite Zplus_mod_idemp_l. Qed.

Lemma step_cursors n c ring W R :
  write_idx ring = uint32 W → read_idx ring = uint32 R →
  write_idx (ring_after (step n c ring))
  = uint32 (W + is_enqueued (value (step n c ring))) ∧
  read_idx (ring_after (step n c ring))
  = uint32 (R + is_dequeued (value (step n c ring))).
Proof.
  intros Hw Hr. destruct c as [buffer len cookie|].
  - destruct (ring_full n ring) eqn:Hfull.
    + destruct (step_enqueue_full n buffer len cookie ring Hfull) as [-> ->].
      cbn [is_enqueued is_dequeued]. by rewrite !Z.add_0_r.
    + destruct (step_enqueue_ok n buffer len cookie ring Hfull) as [-> ->].
      cbn [is_enqueued is_dequeued enqueued_ring write_idx read_idx].
      rewrite Hw, uint32_uint32_succ, Z.add_0_r. done.
  - rewrite step_dequeue. destruct (ring_empty n ring) eqn:Hempty.
    + rewrite dequeue_empty_eq by done.
      cbn [value ring_after fst snd is_enqueued is_dequeued].
      by rewrite !Z.add_0_r.
    + rewrite dequeue_ok_eq by done.
      cbn [value ring_after fst snd is_enqueued is_dequeued dequeued_ring
           write_idx read_idx].
      rewrite Hr, uint32_uint32_succ, Z.add_0_r. done.
Qed.

Lemma run_cursors n cs ring W R :
  write_idx ring = uint32 W → read_idx ring = uint32 R →
  write_idx (ring_after (run n cs ring))
  = uint32 (W + successful_enqueues (value (run n cs ring))) ∧
  read_idx (ring_after (run n cs ring))
  = uint32 (R + successful_dequeues (value (run n cs ring))).
Proof.
  revert ring W R. induction cs as [|c cs IH]; intros ring W R Hw Hr.
  - cbn. by rewrite !Z.add_0_r.
  - destruct (step_cursors n c ring W R Hw Hr) as [Hw1 Hr1].
    destruct (IH _ _ _ Hw1 Hr1) as [Hw2 Hr2].
    rewrite run_cons_ring, run_cons_value, Hw2, Hr2.
    unfold successful_enqueues, successful_dequeues. cbn [foldr].
    split; f_equal; lia.
Qed.

(** C5: for every slot count [n >= 2], a power of two or not, and every
    run from a zero-initialised ring, however long: the cursors are the
    total numbers [E] and [D] of successful enqueues and dequeues reduced
    modulo 2^32, and [ring_empty] and [ring_full] report exactly
    [E - D = 0] and [E - D = n - 1], also once [E] and [D] have passed
    2^32. *)
Theorem predicates_exact_across_wraparound n cs ring0 :
  2 <= n < UINT32_RANGE → zero_initialised n ring0 →
  write_idx (ring_after (run n cs ring0))
  = successful_enqueues (value (run n cs ring0)) mod 2 ^ 32 ∧
  read_idx (ring_after (run n cs ring0))
  = successful_dequeues (value (run n cs ring0)) mod 2 ^ 32 ∧
  0 <= successful_enqueues (value (run n cs ring0))
       - successful_dequeues (value (run n cs ring0)) <= n - 1 ∧
  (ring_empty n (ring_after (run n cs ring0)) = true
   ↔ successful_enqueues (value (run n cs ring0))
     - successful_dequeues (value (run n cs ring0)) = 0) ∧
  (ring_full n (ring_after (run n cs ring0)) = true
   ↔ successful_enqueues (value (run n cs ring0))
     - successful_dequeues (value (run n cs ring0)) = n - 1).
Proof.
  intros Hn Hzero.
  destruct (zero_initialised_wf n ring0) as [Hwf0 Hout0]; [lia|done|].
  destruct (run_wf n cs ring0) as [Hwf Hout]; [lia|done|].
  destruct (run_cursors n cs ring0 0 0) as [Hw Hr];
    [by destruct Hzero as (_ & -> & _)|by destruct Hzero as (_ & _ & ->)|].
  rewrite Hout0, Z.add_0_l in Hout. unfold unmatched in Hout.
  rewrite Z.add_0_l in Hw, Hr.
  pose proof (outstanding_range (ring_after (run n cs ring0))) as Hrange.
  destruct Hwf as (_ & _ & _ & Hc).
  split; [exact Hw|]. split; [exact Hr|]. rewrite <- Hout.
  split; [lia|]. split.
  - apply ring_empty_outstanding; [lia|done].
  - apply ring_full_outstanding; [lia|done].
Qed.

Lemma predicates_exact_across_wraparound_witness :
  let cs := [call_enqueue 4096 64 1; call_enqueue 8192 64 2; call_dequeue;
             call_enqueue 12288 64 3] in
  2 <= 3 < UINT32_RANGE ∧ zero_initialised 3 (ring_zero 3) ∧
  write_idx (ring_after (run 3 cs (ring_zero 3)))
  = successful_enqueues (value (run 3 cs (ring_zero 3))) mod 2 ^ 32 ∧
  (ring_full 3 (ring_after (run 3 cs (ring_zero 3))) = true
   ↔ successful_enqueues (value (run 3 cs (ring_zero 3)))
     - successful_dequeues (value (run 3 cs (ring_zero 3))) = 3 - 1).
Proof.
  intros cs.
  assert (2 <= 3 < UINT32_RANGE) as Hn by (unfold UINT32_RANGE; lia).
  assert (zero_initialised 3 (ring_zero 3)) as Hzero
    by (apply ring_zero_initialised; lia).
  destruct (predicates_exact_across_wraparound 3 cs (ring_zero 3) Hn Hzero)
    as (Hw & _ & _ & _ & Hfull).
  split; [exact Hn|]. split; [exact Hzero|]. split; [exact Hw|exact Hfull].
Defined.

(** Rounds of one enqueue and one dequeue drive both cursors forward
    together. *)
Lemma run_cycles n k buffer len cookie ring :
  2 <= n < UINT32_RANGE → ring_wf n ring → outstanding ring = 0 →
  ring_wf n (ring_after (run n (cycles k buffer len cookie) ring)) ∧
  outstanding (ring_after (run n (cycles k buffer len cookie) ring)) = 0 ∧
  successful_enqueues (value (run n (cycles k buffer len cookie) ring))
  = Z.of_nat k ∧
  successful_dequeues (value (run n (cycles k buffer len cookie) ring))
  = Z.of_nat k.
Proof.
  intros Hn. revert ring. induction k as [|k IH]; intros ring Hwf Hout.
  - cbn. done.
  - cbn [cycles].
    assert (ring_full n ring = false) as Hfull
      by (apply not_full_outstanding; lia).
    destruct (step_enqueue_ok n buffer len cookie ring Hfull) as [Hv1 Hr1].
    destruct (enqueued_ring_wf n buffer len cookie ring) as [Hwf1 Hout1];
      [lia|done|done|].
    set (r1 := enqueued_ring n buffer len cookie ring) in *.
    assert (ring_empty n r1 = false) as Hempty.
    { apply not_empty_outstanding; [lia|]. destruct Hwf1; lia. }
    pose proof (dequeue_ok_eq n r1 Hempty) as Hdeq.
    destruct (dequeued_ring_wf n r1) as [Hwf2 Hout2]; [lia|done|done|].
    destruct (IH (dequeued_ring r1) Hwf2) as (Hwf3 & Hout3 & HE & HD); [lia|].
    rewrite !run_cons_ring, !run_cons_value, Hr1, Hv1.
    rewrite step_dequeue, Hdeq. cbn [value ring_after fst snd].
    unfold successful_enqueues, successful_dequeues in *. cbn [foldr].
    rewrite HE, HD. cbn [is_enqueued is_dequeued].
    split; [done|]. split; [done|]. lia.
Qed.

(** The cursors do pass 2^32: after 2^32 + 1 rounds both have wrapped
    to 1. *)
Lemma cursor_wrap_reached n :
  2 <= n < UINT32_RANGE →
  ∃ cs,
    successful_enqueues (value (run n cs (ring_zero n))) = UINT32_RANGE + 1 ∧
    successful_dequeues (value (run n cs (ring_zero n))) = UINT32_RANGE + 1 ∧
    write_idx (ring_after (run n cs (ring_zero n))) = 1 ∧
    read_idx (ring_after (run n cs (ring_zero n))) = 1.
Proof.
  intros Hn.
  assert (∃ k : nat, Z.of_nat k = UINT32_RANGE + 1) as [k Hk].
  { exists (Z.to_nat (UINT32_RANGE + 1)). apply Z2Nat.id.
    unfold UINT32_RANGE. lia. }
  exists (cycles k 0 0 0).
  destruct (zero_initialised_wf n (ring_zero n)) as [Hwf Hout];
    [lia|apply ring_zero_initialised; lia|].
  destruct (run_cycles n k 0 0 0 (ring_zero n) Hn Hwf Hout)
    as (_ & _ & HE & HD).
  destruct (run_cursors n (cycles k 0 0 0) (ring_zero n) 0 0) as [Hw Hr];
    [reflexivity|reflexivity|].
  rewrite HE, Hk in Hw. rewrite HD, Hk in Hr. rewrite HE, HD, Hk.
  split; [reflexivity|]. split; [reflexivity|].
  split; [exact Hw|exact Hr].
Qed.

(** The predicates on a ring whose write cursor has wrapped and whose read
    cursor has not. *)
Example predicates_across_the_boundary :
  let ring := Build_ring_buffer (replicate 3 (Build_buff_desc 0 0 0))
                1 4294967295 in
  outstanding ring = 2 ∧ ring_full 3 ring = true ∧ ring_empty 3 ring = false.
Proof. repeat split. Qed.

(** ** The ring against the FIFO queue of the specification *)

Lemma run_length n cs ring : length (value (run n cs ring)) = length cs.
Proof.
  revert ring. induction cs as [|c cs IH]; intros ring; [done|].
  rewrite run_cons_value. cbn [length]. by rewrite IH.
Qed.

Lemma fifo_run_cons n c cs q :
  fifo_run n (c :: cs) q
  = (fst (fifo_step n c q)
       :: fst (fifo_run n cs (snd (fifo_step n c q))),
     snd (fifo_run n cs (snd (fifo_step n c q)))).
Proof.
  cbn [fifo_run]. destruct (fifo_step n c q) as [r q1]. cbn [fst snd].
  by destruct (fifo_run n cs q1).
Qed.

Lemma fifo_run_app n cs1 cs2 q :
  fifo_run n (cs1 ++ cs2) q
  = (fst (fifo_run n cs1 q) ++ fst (fifo_run n cs2 (snd (fifo_run n cs1 q))),
     snd (fifo_run n cs2 (snd (fifo_run n cs1 q)))).
Proof.
  revert q. induction cs1 as [|c cs1 IH]; intros q.
  - cbn. by destruct (fifo_run n cs2 q).
  - rewrite <- app_comm_cons, !fifo_run_cons, IH. done.
Qed.

Lemma fifo_run_length n cs q : length (fst (fifo_run n cs q)) = length cs.
Proof.
  revert q. induction cs as [|c cs IH]; intros q; [done|].
  rewrite fifo_run_cons. cbn [fst length]. by rewrite IH.
Qed.

Lemma fifo_run_cycles n k buffer len cookie :
  2 <= n → snd (fifo_run n (cycles k buffer len cookie) []) = [].
Proof.
  intros Hn. induction k as [|k IH]; [done|].
  cbn [cycles]. rewrite !fifo_run_cons. cbn [snd].
  assert (fifo_step n (call_enqueue buffer len cookie) []
          = (reply_enqueue 0, [Build_buff_desc buffer len cookie])) as ->.
  { unfold fifo_step. cbn [length app].
    destruct (Z.of_nat 0 =? n - 1) eqn:Heq; [|done].
    apply Z.eqb_eq in Heq. lia. }
  exact IH.
Qed.

(** With three slots and both cursors at 2^32 - 1, two enqueues in a row
    store to the same slot, 4294967295 % 3 = 0 and 0 % 3 = 0: the second
    descriptor overwrites the first, and both dequeues return it. *)
Lemma wrap_overwrites_slot ring :
  length (buffers ring) = 3%nat →
  write_idx ring = 4294967295 → read_idx ring = 4294967295 →
  value (run 3 [call_enqueue 1 2 3; call_enqueue 4 5 6;
                call_dequeue; call_dequeue] ring)
  = [reply_enqueue 0; reply_enqueue 0;
     reply_dequeue 0 (Some (Build_buff_desc 4 5 6));
     reply_dequeue 0 (Some (Build_buff_desc 4 5 6))].
Proof.
  destruct ring as [bufs w r]. cbn [buffers write_idx read_idx].
  intros Hlen -> ->.
  destruct bufs as [|x [|y [|z [|]]]]; try discriminate Hlen.
  reflexivity.
Qed.

(** C1, at the point where the code departs from it: with three slots,
    once 2^32 - 1 descriptors have gone through the ring from its zero
    initialisation, the next two descriptors enqueued are not the two
    dequeued: the first is lost and the second comes out twice, where the
    FIFO queue returns the first and then the second. *)
Theorem fifo_broken_at_cursor_wrap :
  ∃ cs rs rs',
    value (run 3 cs (ring_zero 3))
    = rs ++ [reply_enqueue 0; reply_enqueue 0;
             reply_dequeue 0 (Some (Build_buff_desc 4 5 6));
             reply_dequeue 0 (Some (Build_buff_desc 4 5 6))] ∧
    fst (fifo_run 3 cs [])
    = rs' ++ [reply_enqueue 0; reply_enqueue 0;
              reply_dequeue 0 (Some (Build_buff_desc 1 2 3));
              reply_dequeue 0 (Some (Build_buff_desc 4 5 6))] ∧
    length rs = length rs' ∧
    value (run 3 cs (ring_zero 3)) ≠ fst (fifo_run 3 cs []).
Proof.
  assert (∃ k : nat, Z.of_nat k = 4294967295) as [k Hk].
  { exists (Z.to_nat 4294967295). apply Z2Nat.id. lia. }
  assert (2 <= 3 < UINT32_RANGE) as Hn by (unfold UINT32_RANGE; lia).
  set (tail := [call_enqueue 1 2 3; call_enqueue 4 5 6;
                call_dequeue; call_dequeue]).
  destruct (zero_initialised_wf 3 (ring_zero 3)) as [Hwf Hout];
    [lia|apply ring_zero_initialised; lia|].
  destruct (run_cycles 3 k 0 0 0 (ring_zero 3) Hn Hwf Hout)
    as (Hwf1 & _ & HE & HD).
  destruct (run_cursors 3 (cycles k 0 0 0) (ring_zero 3) 0 0) as [Hw Hr];
    [reflexivity|reflexivity|].
  rewrite HE, Hk in Hw. rewrite HD, Hk in Hr.
  assert (value (run 3 (cycles k 0 0 0 ++ tail) (ring_zero 3))
          = value (run 3 (cycles k 0 0 0) (ring_zero 3))
            ++ [reply_enqueue 0; reply_enqueue 0;
                reply_dequeue 0 (Some (Build_buff_desc 4 5 6));
                reply_dequeue 0 (Some (Build_buff_desc 4 5 6))]) as Hcode.
  { rewrite run_app_value. f_equal. apply wrap_overwrites_slot.
    - destruct Hwf1 as (Hlen & _). lia.
    - exact Hw.
    - exact Hr. }
  assert (fst (fifo_run 3 (cycles k 0 0 0 ++ tail) [])
          = fst (fifo_run 3 (cycles k 0 0 0) [])
            ++ [reply_enqueue 0; reply_enqueue 0;
                reply_dequeue 0 (Some (Build_buff_desc 1 2 3));
                reply_dequeue 0 (Some (Build_buff_desc 4 5 6))]) as Hfifo.
  { rewrite fifo_run_app. cbn [fst].
    rewrite fifo_run_cycles by lia. reflexivity. }
  assert (length (value (run 3 (cycles k 0 0 0) (ring_zero 3)))
          = length (fst (fifo_run 3 (cycles k 0 0 0) []))) as Hlen
    by (by rewrite run_length, fifo_run_length).
  exists (cycles k 0 0 0 ++ tail), (value (run 3 (cycles k 0 0 0) (ring_zero 3))),
    (fst (fifo_run 3 (cycles k 0 0 0) [])).
  split; [exact Hcode|]. split; [exact Hfifo|]. split; [exact Hlen|].
  rewrite Hcode, Hfifo. intros Heq.
  apply app_inj_1 in Heq; [|exact Hlen].
  destruct Heq as [_ Heq]. discriminate Heq.
Qed.

(** *** Where the slot count divides 2^32

    Reducing a cursor modulo [n] then commutes with the wrap of the cursor,
    outstanding entries sit in distinct slots, and the ring is the FIFO
    queue. *)

Lemma uint32_mod_divide n z :
  0 < n → (n | UINT32_RANGE) → uint32 z mod n = z mod n.
Proof.
  intros Hn Hdiv. unfold uint32. by apply Z.mod_mod_divide.
Qed.

Lemma slots_distinct n r (i c : Z) :
  0 < n → 0 <= i < c → c < n → (r + i) mod n ≠ (r + c) mod n.
Proof.
  intros Hn Hi Hc Heq.
  assert ((c - i) mod n = 0) as Hzero.
  { replace (c - i) with ((r + c) - (r + i)) by lia.
    rewrite Zminus_mod, Heq, Z.sub_diag. apply Zmod_0_l. }
  rewrite Z.mod_small in Hzero by lia. lia.
Qed.

Lemma write_idx_from_read ring :
  0 <= write_idx ring < UINT32_RANGE →
  write_idx ring = uint32 (read_idx ring + outstanding ring).
Proof.
  intros Hw. unfold outstanding, uint32.
  rewrite Zplus_mod_idemp_r.
  replace (read_idx ring + (write_idx ring - read_idx ring))
    with (write_idx ring) by lia.
  symmetry. by apply Z.mod_small.
Qed.

Lemma holds_enqueue n buffer len cookie ring q :
  0 < n < UINT32_RANGE → (n | UINT32_RANGE) →
  ring_wf n ring → holds n ring q → ring_full n ring = false →
  holds n (enqueued_ring n buffer len cookie ring)
    (q ++ [Build_buff_desc buffer len cookie]).
Proof.
  intros Hn Hdiv Hwf [Hout Hslots] Hfull.
  destruct (enqueued_ring_wf n buffer len cookie ring Hn Hwf Hfull)
    as [Hwf1 Hout1].
  destruct Hwf as (Hlen & Hw & Hr & Hc).
  assert (write_slot n ring = (read_idx ring + outstanding ring) mod n)
    as Hslot.
  { unfold write_slot. rewrite (write_idx_from_read ring Hw) at 1.
    apply uint32_mod_divide; [lia|done]. }
  split.
  - rewrite Hout1, Hout, length_app. cbn [length]. lia.
  - intros i d Hi. cbn [enqueued_ring read_idx].
    rewrite uint32_mod_divide by (done || lia).
    apply lookup_app_Some in Hi as [Hi|[Hge Hi]].
    + pose proof (lookup_lt_Some _ _ _ Hi) as Hlt.
      change (alter (set_cookie cookie) _ _)
        with (buffers (enqueued_ring n buffer len cookie ring)).
      rewrite enqueued_ring_lookup_ne.
      * rewrite <- uint32_mod_divide by (done || lia). by apply Hslots.
      * rewrite Hslot. intros Heq.
        apply Z2Nat.inj in Heq;
          [|apply Z.mod_pos_bound; lia|apply Z.mod_pos_bound; lia].
        revert Heq. apply slots_distinct; lia.
    + apply list_lookup_singleton_Some in Hi as [Hi <-].
      assert (Z.of_nat i = outstanding ring) as -> by lia.
      rewrite <- Hslot.
      change (alter (set_cookie cookie) _ _)
        with (buffers (enqueued_ring n buffer len cookie ring)).
      apply enqueued_ring_lookup; [lia|done].
Qed.

Lemma holds_dequeue n ring d q :
  0 < n < UINT32_RANGE → ring_wf n ring → holds n ring (d :: q) →
  ring_empty n ring = false ∧
  value (dequeue n ring) = (0, Some d) ∧
  holds n (dequeued_ring ring) q.
Proof.
  intros Hn Hwf [Hout Hslots].
  pose proof Hwf as (Hlen & Hw & Hr & Hc).
  cbn [length] in Hout.
  assert (ring_empty n ring = false) as Hempty
    by (apply not_empty_outstanding; lia).
  destruct (dequeued_ring_wf n ring Hn Hwf Hempty) as [_ Hout1].
  split; [done|]. split.
  - rewrite dequeue_ok_eq by done. cbn [value].
    pose proof (Hslots 0%nat d eq_refl) as Hhead.
    rewrite Z.add_0_r, uint32_small in Hhead by done.
    unfold read_slot. rewrite Hhead. by destruct d.
  - split; [lia|].
    intros i d' Hi. cbn [dequeued_ring read_idx buffers].
    pose proof (Hslots (S i) d' Hi) as Hslot.
    replace (uint32 (uint32 (read_idx ring + 1) + Z.of_nat i))
      with (uint32 (read_idx ring + Z.of_nat (S i))); [done|].
    unfold uint32. rewrite Zplus_mod_idemp_l. f_equal. lia.
Qed.

Lemma step_simulation n c ring q :
  0 < n < UINT32_RANGE → (n | UINT32_RANGE) →
  ring_wf n ring → holds n ring q →
  value (step n c ring) = fst (fifo_step n c q) ∧
  holds n (ring_after (step n c ring)) (snd (fifo_step n c q)).
Proof.
  intros Hn Hdiv Hwf Hholds. destruct c as [buffer len cookie|].
  - pose proof Hholds as [Hout _]. pose proof Hwf as (_ & _ & _ & Hc).
    cbn [fifo_step]. destruct (Z.of_nat (length q) =? n - 1) eqn:Hq.
    + apply Z.eqb_eq in Hq.
      assert (ring_full n ring = true) as Hfull
        by (apply ring_full_outstanding; [done|done|lia]).
      destruct (step_enqueue_full n buffer len cookie ring Hfull) as [-> ->].
      done.
    + apply Z.eqb_neq in Hq.
      assert (ring_full n ring = false) as Hfull
        by (apply not_full_outstanding; [done|lia]).
      destruct (step_enqueue_ok n buffer len cookie ring Hfull) as [-> ->].
      split; [done|]. by apply holds_enqueue.
  - destruct q as [|d q].
    + destruct Hholds as [Hout _]. cbn [length] in Hout.
      assert (ring_empty n ring = true) as Hempty.
      { apply ring_empty_outstanding; [lia| |done]. destruct Hwf; lia. }
      destruct (step_dequeue_empty n ring Hempty) as [-> ->].
      split; [done|]. split; [done|]. intros i d Hi. done.
    + destruct (holds_dequeue n ring d q Hn Hwf Hholds)
        as (Hempty & Hval & Hholds1).
      rewrite step_dequeue, Hval. rewrite dequeue_ok_eq by done. done.
Qed.

Lemma run_simulation n cs ring q :
  0 < n < UINT32_RANGE → (n | UINT32_RANGE) →
  ring_wf n ring → holds n ring q →
  value (run n cs ring) = fst (fifo_run n cs q).
Proof.
  intros Hn Hdiv. revert ring q.
  induction cs as [|c cs IH]; intros ring q Hwf Hholds; [done|].
  destruct (step_simulation n c ring q Hn Hdiv Hwf Hholds) as [Hval Hholds1].
  destruct (step_wf n c ring Hn Hwf) as [Hwf1 _].
  rewrite run_cons_value, fifo_run_cons. cbn [fst].
  rewrite Hval. f_equal. by apply IH.
Qed.

(** X1: round trip in FIFO order, where the slot count divides 2^32 (every
    power of two up to 2^31): from a zero-initialised ring, every call
    returns what the FIFO queue of capacity [n - 1] returns, descriptor by
    descriptor. *)
Theorem ring_is_fifo_when_count_divides n cs ring0 :
  0 < n < UINT32_RANGE → (n | UINT32_RANGE) → zero_initialised n ring0 →
  value (run n cs ring0) = fst (fifo_run n cs []).
Proof.
  intros Hn Hdiv Hzero.
  destruct (zero_initialised_wf n ring0) as [Hwf Hout]; [lia|done|].
  apply run_simulation; [done|done|done|].
  split; [by rewrite Hout|]. intros i d Hi. done.
Qed.

Lemma ring_is_fifo_when_count_divides_witness :
  let cs := [call_enqueue 1 2 3; call_enqueue 4 5 6; call_dequeue;
             call_enqueue 7 8 9; call_dequeue; call_dequeue; call_dequeue] in
  0 < 4 < UINT32_RANGE ∧ (4 | UINT32_RANGE) ∧
  zero_initialised 4 (ring_zero 4) ∧
  value (run 4 cs (ring_zero 4)) = fst (fifo_run 4 cs []).
Proof.
  intros cs.
  assert (0 < 4 < UINT32_RANGE) as Hn by (unfold UINT32_RANGE; lia).
  assert (4 | UINT32_RANGE) as Hdiv by (exists 1073741824; reflexivity).
  assert (zero_initialised 4 (ring_zero 4)) as Hzero
    by (apply ring_zero_initialised; lia).
  split; [exact Hn|]. split; [exact Hdiv|]. split; [exact Hzero|].
  exact (ring_is_fifo_when_count_divides 4 cs (ring_zero 4) Hn Hdiv Hzero).
Defined.

(** ** Failure paths as the caller sees them *)

Lemma enqueue_full_is_returned n buffer len cookie ring :
  ring_full n ring = true →
  observe (enqueue n buffer len cookie ring) = Returned (-1).
Proof. intros Hfull. by rewrite enqueue_full_eq. Qed.

Lemma enqueue_ok_is_returned n buffer len cookie ring :
  ring_full n ring = false →
  observe (enqueue n buffer len cookie ring) = Returned 0.
Proof. intros Hfull. by rewrite enqueue_ok_eq. Qed.

Lemma dequeue_ok_is_returned n ring :
  ring_empty n ring = false →
  observe (dequeue n ring) = Returned (value (dequeue n ring)).
Proof. intros Hempty. by rewrite dequeue_ok_eq. Qed.

(** C4, at the point where the code departs from it: [enqueue] on a full
    ring logs at error severity and hands -1 back to its caller, but
    [dequeue] on an empty ring goes through [ZF_LOGF], the log call of
    fatal severity, before its [return -1]: the caller is not handed a
    result. *)
Theorem dequeue_empty_is_fatal n ring :
  ring_empty n ring = true →
  trace (dequeue n ring) = [ev_log ZF_LOG_FATAL "Ring is empty"] ∧
  observe (dequeue n ring) = Terminated.
Proof. intros Hempty. by rewrite dequeue_empty_eq. Qed.

Lemma dequeue_empty_is_fatal_witness :
  ring_empty 4 (ring_zero 4) = true ∧
  trace (dequeue 4 (ring_zero 4)) = [ev_log ZF_LOG_FATAL "Ring is empty"] ∧
  observe (dequeue 4 (ring_zero 4)) = Terminated.
Proof.
  assert (ring_empty 4 (ring_zero 4) = true) as Hempty by reflexivity.
  split; [exact Hempty|].
  exact (dequeue_empty_is_fatal 4 (ring_zero 4) Hempty).
Defined.

(** ** Program order of the stores and the barrier *)

Lemma dequeue_release_precedes_index_store n ring :
  ring_empty n ring = false →
  trace (dequeue n ring)
  = [ev_release; ev_store at_read_idx (uint32 (read_idx ring + 1))].
Proof. intros Hempty. by rewrite dequeue_ok_eq. Qed.

(** C7, at the point where the code departs from it: in a successful
    [enqueue] the three stores to the slot come first, then the store of
    the incremented [write_idx], and the release barrier is the last event
    of the call, after the index store and not before it ([dequeue] has
    the barrier before its index store). *)
Theorem enqueue_release_follows_index_store n buffer len cookie ring :
  ring_full n ring = false →
  trace (enqueue n buffer len cookie ring)
  = [ev_store (at_encoded_addr (write_idx ring mod n)) buffer;
     ev_store (at_len (write_idx ring mod n)) len;
     ev_store (at_cookie (write_idx ring mod n)) cookie;
     ev_store at_write_idx (uint32 (write_idx ring + 1));
     ev_release] ∧
  ∃ before,
    trace (enqueue n buffer len cookie ring)
    = before ++ [ev_store at_write_idx (uint32 (write_idx ring + 1));
                 ev_release].
Proof.
  intros Hfull. rewrite enqueue_ok_eq by done. cbn [trace].
  split; [done|].
  by exists [ev_store (at_encoded_addr (write_slot n ring)) buffer;
             ev_store (at_len (write_slot n ring)) len;
             ev_store (at_cookie (write_slot n ring)) cookie].
Qed.

Lemma enqueue_release_follows_index_store_witness :
  ring_full 4 (ring_zero 4) = false ∧
  trace (enqueue 4 4096 64 7 (ring_zero 4))
  = [ev_store (at_encoded_addr 0) 4096; ev_store (at_len 0) 64;
     ev_store (at_cookie 0) 7; ev_store at_write_idx 1; ev_release].
Proof.
  assert (ring_full 4 (ring_zero 4) = false) as Hfull by reflexivity.
  split; [exact Hfull|].
  exact (proj1 (enqueue_release_follows_index_store 4 4096 64 7 (ring_zero 4)
                  Hfull)).
Defined.

(** ** First in, first out, for every slot count, until the cursors wrap *)

Lemma outstanding_in_step ring :
  0 <= read_idx ring <= write_idx ring → write_idx ring < UINT32_RANGE →
  outstanding ring = write_idx ring - read_idx ring.
Proof. intros Hr Hw. unfold outstanding. apply uint32_small. lia. Qed.

(** Outstanding entries sit in slots other than the one the next enqueue
    stores to, and in distinct slots. *)
Lemma live_slots_distinct n ring (i c : Z) :
  0 < n → ring_wf n ring → slots_in_step n ring →
  0 <= i < c → c <= outstanding ring →
  uint32 (read_idx ring + i) mod n ≠ uint32 (read_idx ring + c) mod n.
Proof.
  intros Hn (_ & Hw & Hr & Hc) [Hdiv|Hle] Hi Hle'.
  - rewrite !uint32_mod_divide by done. apply slots_distinct; lia.
  - rewrite outstanding_in_step in Hle' by lia.
    rewrite outstanding_in_step in Hc by lia.
    rewrite !uint32_small by lia. apply slots_distinct; lia.
Qed.

Lemma holds_enqueue_in_step n buffer len cookie ring q :
  0 < n < UINT32_RANGE → ring_wf n ring → slots_in_step n ring →
  holds n ring q → ring_full n ring = false →
  holds n (enqueued_ring n buffer len cookie ring)
    (q ++ [Build_buff_desc buffer len cookie]).
Proof.
  intros Hn Hwf Hstep [Hout Hslots] Hfull.
  destruct (enqueued_ring_wf n buffer len cookie ring Hn Hwf Hfull)
    as [_ Hout1].
  pose proof Hwf as (Hlen & Hw & Hr & Hc).
  assert (write_slot n ring
          = uint32 (read_idx ring + outstanding ring) mod n) as Hslot.
  { unfold write_slot. by rewrite <- (write_idx_from_read ring Hw). }
  split.
  - rewrite Hout1, Hout, length_app. cbn [length]. lia.
  - intros i d Hi.
    change (read_idx (enqueued_ring n buffer len cookie ring))
      with (read_idx ring).
    apply lookup_app_Some in Hi as [Hi|[Hge Hi]].
    + pose proof (lookup_lt_Some _ _ _ Hi) as Hlt.
      rewrite enqueued_ring_lookup_ne; [by apply Hslots|].
      rewrite Hslot. intros Heq.
      apply Z2Nat.inj in Heq;
        [|apply Z.mod_pos_bound; lia|apply Z.mod_pos_bound; lia].
      revert Heq. apply live_slots_distinct; [lia|done|done|lia|lia].
    + apply list_lookup_singleton_Some in Hi as [Hi <-].
      assert (Z.of_nat i = outstanding ring) as -> by lia.
      rewrite <- Hslot. apply enqueued_ring_lookup; [lia|done].
Qed.

Lemma step_simulation_in_step n c ring q :
  0 < n < UINT32_RANGE → ring_wf n ring → slots_in_step n ring →
  holds n ring q →
  value (step n c ring) = fst (fifo_step n c q) ∧
  holds n (ring_after (step n c ring)) (snd (fifo_step n c q)).
Proof.
  intros Hn Hwf Hstep Hholds. destruct c as [buffer len cookie|].
  - pose proof Hholds as [Hout _]. pose proof Hwf as (_ & _ & _ & Hc).
    cbn [fifo_step]. destruct (Z.of_nat (length q) =? n - 1) eqn:Hq.
    + apply Z.eqb_eq in Hq.
      assert (ring_full n ring = true) as Hfull
        by (apply ring_full_outstanding; [done|done|lia]).
      destruct (step_enqueue_full n buffer len cookie ring Hfull) as [-> ->].
      done.
    + apply Z.eqb_neq in Hq.
      assert (ring_full n ring = false) as Hfull
        by (apply not_full_outstanding; [done|lia]).
      destruct (step_enqueue_ok n buffer len cookie ring Hfull) as [-> ->].
      split; [done|]. by apply holds_enqueue_in_step.
  - destruct q as [|d q].
    + destruct Hholds as [Hout _]. cbn [length] in Hout.
      assert (ring_empty n ring = true) as Hempty.
      { apply ring_empty_outstanding; [lia| |done]. destruct Hwf; lia. }
      destruct (step_dequeue_empty n ring Hempty) as [-> ->].
      split; [done|]. split; [done|]. intros i d Hi. done.
    + destruct (holds_dequeue n ring d q Hn Hwf Hholds)
        as (Hempty & Hval & Hholds1).
      rewrite step_dequeue, Hval. rewrite dequeue_ok_eq by done. done.
Qed.

(** A call moves the write cursor by at most one, and never behind the
    read cursor. *)
Lemma step_keeps_in_step n c ring (room : Z) :
  0 < n < UINT32_RANGE → ring_wf n ring →
  read_idx ring <= write_idx ring →
  write_idx ring + 1 + room < UINT32_RANGE → 0 <= room →
  read_idx (ring_after (step n c ring))
  <= write_idx (ring_after (step n c ring)) ∧
  write_idx (ring_after (step n c ring)) + room < UINT32_RANGE.
Proof.
  intros Hn Hwf Hle Hroom Hpos. pose proof Hwf as (_ & Hw & Hr & Hc).
  destruct c as [buffer len cookie|].
  - destruct (ring_full n ring) eqn:Hfull.
    + destruct (step_enqueue_full n buffer len cookie ring Hfull) as [_ ->].
      lia.
    + destruct (step_enqueue_ok n buffer len cookie ring Hfull) as [_ ->].
      cbn [enqueued_ring write_idx read_idx].
      rewrite uint32_small by lia. lia.
  - destruct (ring_empty n ring) eqn:Hempty.
    + destruct (step_dequeue_empty n ring Hempty) as [_ ->]. lia.
    + destruct (step_dequeue_ok n ring Hempty) as [_ ->].
      cbn [dequeued_ring write_idx read_idx].
      assert (outstanding ring ≠ 0) as Hne.
      { intros Heq. apply (ring_empty_outstanding n ring) in Heq;
          [congruence|lia|done]. }
      rewrite outstanding_in_step in Hne by lia.
      rewrite uint32_small by lia. lia.
Qed.

Lemma run_simulation_before_wrap n cs ring q :
  0 < n < UINT32_RANGE → ring_wf n ring → holds n ring q →
  read_idx ring <= write_idx ring →
  write_idx ring + Z.of_nat (length cs) < UINT32_RANGE →
  value (run n cs ring) = fst (fifo_run n cs q).
Proof.
  intros Hn. revert ring q.
  induction cs as [|c cs IH]; intros ring q Hwf Hholds Hle Hroom; [done|].
  cbn [length] in Hroom.
  destruct (step_simulation_in_step n c ring q Hn Hwf) as [Hval Hholds1];
    [by right|done|].
  destruct (step_wf n c ring Hn Hwf) as [Hwf1 _].
  destruct (step_keeps_in_step n c ring (Z.of_nat (length cs)) Hn Hwf Hle)
    as [Hle1 Hroom1]; [lia|lia|].
  rewrite run_cons_value, fifo_run_cons. cbn [fst].
  rewrite Hval. f_equal. by apply IH.
Qed.

(** X2: whatever the slot count, a power of two or not, the first 2^32 - 1
    calls on a zero-initialised ring return what the FIFO queue of capacity
    [n - 1] returns: every descriptor comes back unchanged and in the order
    of the enqueues. *)
Theorem ring_is_fifo_before_cursor_wrap n cs ring0 :
  0 < n < UINT32_RANGE → zero_initialised n ring0 →
  Z.of_nat (length cs) < UINT32_RANGE →
  value (run n cs ring0) = fst (fifo_run n cs []).
Proof.
  intros Hn Hzero Hlen.
  destruct (zero_initialised_wf n ring0) as [Hwf Hout]; [lia|done|].
  destruct Hzero as (_ & Hw & Hr).
  apply run_simulation_before_wrap; [done|done| |lia|lia].
  split; [by rewrite Hout|]. intros i d Hi. done.
Qed.

Lemma ring_is_fifo_before_cursor_wrap_witness :
  let cs := [call_enqueue 1 2 3; call_enqueue 4 5 6; call_enqueue 7 8 9;
             call_dequeue; call_enqueue 10 11 12; call_dequeue;
             call_dequeue; call_dequeue; call_dequeue] in
  0 < 3 < UINT32_RANGE ∧ zero_initialised 3 (ring_zero 3) ∧
  Z.of_nat (length cs) < UINT32_RANGE ∧
  value (run 3 cs (ring_zero 3)) = fst (fifo_run 3 cs []).
Proof.
  intros cs.
  assert (0 < 3 < UINT32_RANGE) as Hn by (unfold UINT32_RANGE; lia).
  assert (zero_initialised 3 (ring_zero 3)) as Hzero
    by (apply ring_zero_initialised; lia).
  assert (Z.of_nat (length cs) < UINT32_RANGE) as Hlen
    by (unfold UINT32_RANGE; cbn; lia).
  split; [exact Hn|]. split; [exact Hzero|]. split; [exact Hlen|].
  exact (ring_is_fifo_before_cursor_wrap 3 cs (ring_zero 3) Hn Hzero Hlen).
Defined.

(** ** One descriptor through an empty ring *)

Lemma empty_ring_cursors_equal n ring :
  0 < n → ring_wf n ring → ring_empty n ring = true →
  write_idx ring = read_idx ring.
Proof.
  intros Hn (_ & Hw & Hr & Hc) Hempty.
  apply ring_empty_outstanding in Hempty; [|done|done].
  rewrite (write_idx_from_read ring Hw), Hempty, Z.add_0_r.
  by apply uint32_small.
Qed.

Lemma round_trip_steps n buffer len cookie ring :
  2 <= n < UINT32_RANGE → ring_wf n ring → ring_empty n ring = true →
  step n (call_enqueue buffer len cookie) ring
  = Outcome (reply_enqueue 0) (enqueued_ring n buffer len cookie ring)
      (trace (step n (call_enqueue buffer len cookie) ring)) ∧
  step n call_dequeue (enqueued_ring n buffer len cookie ring)
  = Outcome (reply_dequeue 0 (Some (Build_buff_desc buffer len cookie)))
      (dequeued_ring (enqueued_ring n buffer len cookie ring))
      (trace (step n call_dequeue (enqueued_ring n buffer len cookie ring))).
Proof.
  intros Hn Hwf Hempty.
  pose proof (empty_ring_cursors_equal n ring ltac:(lia) Hwf Hempty) as Heq.
  pose proof Hwf as (Hlen & Hw & Hr & Hc).
  assert (outstanding ring = 0) as Hout
    by (apply ring_empty_outstanding in Hempty; [done|lia|done]).
  assert (ring_full n ring = false) as Hfull
    by (apply not_full_outstanding; lia).
  destruct (enqueued_ring_wf n buffer len cookie ring) as [Hwf1 Hout1];
    [lia|done|done|].
  assert (ring_empty n (enqueued_ring n buffer len cookie ring) = false)
    as Hempty1 by (apply not_empty_outstanding; lia).
  split.
  - rewrite step_enqueue, enqueue_ok_eq by done. reflexivity.
  - rewrite step_dequeue, dequeue_ok_eq by done. cbn [value ring_after fst snd].
    assert (read_slot n (enqueued_ring n buffer len cookie ring)
            = write_slot n ring) as ->.
    { unfold read_slot, write_slot. cbn [enqueued_ring read_idx].
      by rewrite Heq. }
    rewrite enqueued_ring_lookup by (done || lia). reflexivity.
Qed.

(** X3: a descriptor enqueued on an empty ring is what the next dequeue
    returns, member by member, for every slot count from 2 up and wherever
    the cursors stand (at the 32-bit wrap too); the ring is empty again and
    both cursors have moved on by one. *)
Theorem enqueue_dequeue_round_trip n buffer len cookie ring :
  2 <= n < UINT32_RANGE → ring_wf n ring → ring_empty n ring = true →
  value (run n [call_enqueue buffer len cookie; call_dequeue] ring)
  = [reply_enqueue 0;
     reply_dequeue 0 (Some (Build_buff_desc buffer len cookie))] ∧
  ring_empty n
    (ring_after (run n [call_enqueue buffer len cookie; call_dequeue] ring))
  = true ∧
  write_idx
    (ring_after (run n [call_enqueue buffer len cookie; call_dequeue] ring))
  = uint32 (write_idx ring + 1) ∧
  read_idx
    (ring_after (run n [call_enqueue buffer len cookie; call_dequeue] ring))
  = uint32 (read_idx ring + 1).
Proof.
  intros Hn Hwf Hempty.
  destruct (round_trip_steps n buffer len cookie ring Hn Hwf Hempty)
    as [Henq Hdeq].
  pose proof (empty_ring_cursors_equal n ring ltac:(lia) Hwf Hempty) as Heq.
  rewrite !run_cons_value, !run_cons_ring, Henq. cbn [value ring_after].
  rewrite Hdeq. cbn [value ring_after run mret M_ret].
  split; [done|]. split; [|done].
  unfold ring_empty. cbn [dequeued_ring enqueued_ring write_idx read_idx].
  rewrite Heq, Z.sub_diag. change (uint32 0) with 0. by rewrite Zmod_0_l.
Qed.

Lemma enqueue_dequeue_round_trip_witness :
  let ring := Build_ring_buffer (replicate 3 (Build_buff_desc 0 0 0))
                4294967295 4294967295 in
  2 <= 3 < UINT32_RANGE ∧ ring_wf 3 ring ∧ ring_empty 3 ring = true ∧
  value (run 3 [call_enqueue 4096 64 7; call_dequeue] ring)
  = [reply_enqueue 0; reply_dequeue 0 (Some (Build_buff_desc 4096 64 7))].
Proof.
  intros ring.
  assert (2 <= 3 < UINT32_RANGE) as Hn by (unfold UINT32_RANGE; lia).
  assert (ring_wf 3 ring) as Hwf.
  { repeat split; vm_compute; (reflexivity || congruence). }
  assert (ring_empty 3 ring = true) as Hempty by reflexivity.
  split; [exact Hn|]. split; [exact Hwf|]. split; [exact Hempty|].
  exact (proj1 (enqueue_dequeue_round_trip 3 4096 64 7 ring Hn Hwf Hempty)).
Defined.

(** ** Producer and consumer do not interfere *)

(** X4: on a ring that is neither empty nor full, an enqueue and a dequeue
    give the same replies and the same ring in either order: the slot the
    producer stores to is not the slot the consumer reads. *)
Theorem enqueue_dequeue_commute n addr sz ck ring :
  0 < n < UINT32_RANGE → ring_wf n ring → slots_in_step n ring →
  ring_empty n ring = false → ring_full n ring = false →
  ∃ out,
    value (run n [call_enqueue addr sz ck; call_dequeue] ring)
    = [reply_enqueue 0; reply_dequeue 0 (Some out)] ∧
    value (run n [call_dequeue; call_enqueue addr sz ck] ring)
    = [reply_dequeue 0 (Some out); reply_enqueue 0] ∧
    ring_after (run n [call_enqueue addr sz ck; call_dequeue] ring)
    = ring_after (run n [call_dequeue; call_enqueue addr sz ck] ring).
Proof.
  intros Hn Hwf Hstep Hempty Hfull.
  pose proof Hwf as (Hlen & Hw & Hr & Hc).
  pose proof (outstanding_range ring) as Hrange.
  assert (0 < outstanding ring) as Hpos.
  { destruct (decide (outstanding ring = 0)) as [Heq|]; [|lia].
    apply (ring_empty_outstanding n ring) in Heq; [congruence|lia|done]. }
  destruct (enqueued_ring_wf n addr sz ck ring) as [Hwf1 Hout1];
    [done|done|done|].
  destruct (dequeued_ring_wf n ring) as [Hwf2 Hout2]; [done|done|done|].
  assert (ring_empty n (enqueued_ring n addr sz ck ring) = false)
    as Hempty1.
  { apply not_empty_outstanding; [lia|]. destruct Hwf1 as (_ & _ & _ & ?).
    lia. }
  assert (ring_full n (dequeued_ring ring) = false) as Hfull2
    by (apply not_full_outstanding; [done|lia]).
  assert (Z.to_nat (read_slot n ring) ≠ Z.to_nat (write_slot n ring))
    as Hslots.
  { unfold read_slot, write_slot. intros Heq.
    apply Z2Nat.inj in Heq;
      [|apply Z.mod_pos_bound; lia|apply Z.mod_pos_bound; lia].
    revert Heq. rewrite (write_idx_from_read ring Hw) at 1.
    rewrite <- (uint32_small (read_idx ring)) at 1 by done.
    rewrite <- (Z.add_0_r (read_idx ring)) at 1.
    apply live_slots_distinct; [lia|done|done|lia|lia]. }
  exists (Build_buff_desc
            (from_option encoded_addr 0
               (buffers ring !! Z.to_nat (read_slot n ring)))
            (from_option len 0
               (buffers ring !! Z.to_nat (read_slot n ring)))
            (from_option cookie 0
               (buffers ring !! Z.to_nat (read_slot n ring)))).
  rewrite !run_cons_value, !run_cons_ring.
  destruct (step_enqueue_ok n addr sz ck ring Hfull) as [-> ->].
  destruct (step_enqueue_ok n addr sz ck (dequeued_ring ring) Hfull2)
    as [Henq2 Hring2].
  rewrite !step_dequeue, !dequeue_ok_eq by done.
  cbn [value ring_after fst snd run mret M_ret].
  rewrite Henq2, Hring2.
  assert (read_slot n (enqueued_ring n addr sz ck ring)
          = read_slot n ring) as -> by reflexivity.
  rewrite enqueued_ring_lookup_ne by done.
  split; [done|]. split; [done|]. reflexivity.
Qed.

Lemma enqueue_dequeue_commute_witness :
  let ring :=
    Build_ring_buffer
      [Build_buff_desc 1 2 3; Build_buff_desc 0 0 0; Build_buff_desc 0 0 0;
       Build_buff_desc 0 0 0] 1 0 in
  0 < 4 < UINT32_RANGE ∧ ring_wf 4 ring ∧ slots_in_step 4 ring ∧
  ring_empty 4 ring = false ∧ ring_full 4 ring = false ∧
  ∃ out,
    value (run 4 [call_enqueue 4096 64 7; call_dequeue] ring)
    = [reply_enqueue 0; reply_dequeue 0 (Some out)] ∧
    value (run 4 [call_dequeue; call_enqueue 4096 64 7] ring)
    = [reply_dequeue 0 (Some out); reply_enqueue 0] ∧
    ring_after (run 4 [call_enqueue 4096 64 7; call_dequeue] ring)
    = ring_after (run 4 [call_dequeue; call_enqueue 4096 64 7] ring).
Proof.
  intros ring.
  assert (0 < 4 < UINT32_RANGE) as Hn by (unfold UINT32_RANGE; lia).
  assert (ring_wf 4 ring) as Hwf
    by (repeat split; vm_compute; (reflexivity || congruence)).
  assert (slots_in_step 4 ring) as Hstep
    by (right; vm_compute; congruence).
  assert (ring_empty 4 ring = false) as Hempty by reflexivity.
  assert (ring_full 4 ring = false) as Hfull by reflexivity.
  split; [exact Hn|]. split; [exact Hwf|]. split; [exact Hstep|].
  split; [exact Hempty|]. split; [exact Hfull|].
  exact (enqueue_dequeue_commute 4 4096 64 7 ring Hn Hwf Hstep Hempty Hfull).
Defined.

(** ** What every run keeps *)

(** X5: from any well-formed ring (an endpoint may attach to a ring that is
    in use), every run leaves a well-formed ring: the array keeps its
    length, the cursors stay 32-bit values, fewer than [n] entries are
    outstanding, and their number has moved by the successful enqueues
    minus the successful dequeues of the run. *)
Theorem run_keeps_ring_well_formed n cs ring :
  0 < n < UINT32_RANGE → ring_wf n ring →
  ring_wf n (ring_after (run n cs ring)) ∧
  length (buffers (ring_after (run n cs ring))) = length (buffers ring) ∧
  outstanding (ring_after (run n cs ring))
  = outstanding ring + successful_enqueues (value (run n cs ring))
    - successful_dequeues (value (run n cs ring)).
Proof.
  intros Hn Hwf. destruct (run_wf n cs ring Hn Hwf) as [Hwf1 Hout].
  split; [done|]. split.
  - destruct Hwf as (Hlen & _), Hwf1 as (Hlen1 & _). lia.
  - rewrite Hout. unfold unmatched. lia.
Qed.

Lemma run_keeps_ring_well_formed_witness :
  let ring :=
    Build_ring_buffer (replicate 3 (Build_buff_desc 0 0 0)) 0 4294967295 in
  let cs := [call_enqueue 1 2 3; call_enqueue 4 5 6; call_dequeue;
             call_dequeue; call_dequeue] in
  0 < 3 < UINT32_RANGE ∧ ring_wf 3 ring ∧
  ring_wf 3 (ring_after (run 3 cs ring)) ∧
  outstanding (ring_after (run 3 cs ring))
  = outstanding ring + successful_enqueues (value (run 3 cs ring))
    - successful_dequeues (value (run 3 cs ring)).
Proof.
  intros ring cs.
  assert (0 < 3 < UINT32_RANGE) as Hn by (unfold UINT32_RANGE; lia).
  assert (ring_wf 3 ring) as Hwf
    by (repeat split; vm_compute; (reflexivity || congruence)).
  destruct (run_keeps_ring_well_formed 3 cs ring Hn Hwf) as (Hwf1 & _ & Hout).
  split; [exact Hn|]. split; [exact Hwf|]. split; [exact Hwf1|exact Hout].
Defined.

(** X6: a successful enqueue leaves something to dequeue, and a successful
    dequeue leaves room for an enqueue. *)
Theorem success_enables_the_peer n ring :
  0 < n < UINT32_RANGE → ring_wf n ring →
  (∀ buffer len cookie,
     value (enqueue n buffer len cookie ring) = 0 →
     ring_empty n (ring_after (enqueue n buffer len cookie ring)) = false) ∧
  (fst (value (dequeue n ring)) = 0 →
   ring_full n (ring_after (dequeue n ring)) = false).
Proof.
  intros Hn Hwf. pose proof (outstanding_range ring) as Hrange. split.
  - intros buffer len cookie Hret. apply enqueue_success_not_full in Hret.
    rewrite enqueue_ok_eq by done. cbn [ring_after].
    destruct (enqueued_ring_wf n buffer len cookie ring Hn Hwf Hret)
      as [(_ & _ & _ & Hc) Hout].
    apply not_empty_outstanding; lia.
  - intros Hret. apply dequeue_success_not_empty in Hret.
    rewrite dequeue_ok_eq by done. cbn [ring_after].
    destruct (dequeued_ring_wf n ring Hn Hwf Hret) as [_ Hout].
    destruct Hwf as (_ & _ & _ & Hc).
    apply not_full_outstanding; [done|lia].
Qed.

Lemma success_enables_the_peer_witness :
  let ring :=
    Build_ring_buffer
      [Build_buff_desc 1 2 3; Build_buff_desc 0 0 0; Build_buff_desc 0 0 0]
      1 0 in
  0 < 3 < UINT32_RANGE ∧ ring_wf 3 ring ∧
  value (enqueue 3 4096 64 7 ring) = 0 ∧
  fst (value (dequeue 3 ring)) = 0 ∧
  ring_empty 3 (ring_after (enqueue 3 4096 64 7 ring)) = false ∧
  ring_full 3 (ring_after (dequeue 3 ring)) = false.
Proof.
  intros ring.
  assert (0 < 3 < UINT32_RANGE) as Hn by (unfold UINT32_RANGE; lia).
  assert (ring_wf 3 ring) as Hwf
    by (repeat split; vm_compute; (reflexivity || congruence)).
  assert (value (enqueue 3 4096 64 7 ring) = 0) as Henq by reflexivity.
  assert (fst (value (dequeue 3 ring)) = 0) as Hdeq by reflexivity.
  destruct (success_enables_the_peer 3 ring Hn Hwf) as [Hp Hc].
  split; [exact Hn|]. split; [exact Hwf|]. split; [exact Henq|].
  split; [exact Hdeq|]. split; [exact (Hp 4096 64 7 Henq)|exact (Hc Hdeq)].
Defined.

(** ** Draining a ring *)

Lemma run_dequeue_calls n (k : nat) ring :
  0 < n < UINT32_RANGE → ring_wf n ring →
  Z.of_nat k <= outstanding ring →
  reply_ret <$> value (run n (dequeue_calls k) ring) = replicate k 0 ∧
  ring_wf n (ring_after (run n (dequeue_calls k) ring)) ∧
  outstanding (ring_after (run n (dequeue_calls k) ring))
  = outstanding ring - Z.of_nat k.
Proof.
  intros Hn. revert ring. induction k as [|k IH]; intros ring Hwf Hk.
  - cbn. split; [done|]. split; [done|lia].
  - assert (ring_empty n ring = false) as Hempty.
    { apply not_empty_outstanding; [lia|]. destruct Hwf; lia. }
    destruct (step_dequeue_ok n ring Hempty) as [Hret Hring].
    destruct (dequeued_ring_wf n ring Hn Hwf Hempty) as [Hwf1 Hout1].
    change (dequeue_calls (S k)) with (call_dequeue :: dequeue_calls k).
    rewrite run_cons_value, run_cons_ring, Hring.
    destruct (IH _ Hwf1) as (Hvals & Hwf2 & Hout2); [lia|].
    rewrite fmap_cons, Hvals, Hret, Hout2, Hout1. cbn [replicate].
    split; [done|]. split; [done|lia].
Qed.

(** X7: a well-formed ring with [c] outstanding entries gives exactly [c]
    successful dequeues in a row; the next one returns -1 and the ring is
    empty. *)
Theorem ring_drains_exactly_outstanding n (c : nat) ring :
  0 < n < UINT32_RANGE → ring_wf n ring → outstanding ring = Z.of_nat c →
  reply_ret <$> value (run n (dequeue_calls c ++ [call_dequeue]) ring)
  = replicate c 0 ++ [-1] ∧
  ring_empty n (ring_after (run n (dequeue_calls c ++ [call_dequeue]) ring))
  = true.
Proof.
  intros Hn Hwf Hc.
  destruct (run_dequeue_calls n c ring Hn Hwf) as (Hvals & Hwf1 & Hout1);
    [lia|].
  set (r1 := ring_after (run n (dequeue_calls c) ring)) in *.
  assert (ring_empty n r1 = true) as Hempty.
  { apply ring_empty_outstanding; [lia| |lia]. destruct Hwf1; lia. }
  destruct (step_dequeue_empty n r1 Hempty) as [Hval Hring].
  rewrite run_app_value, run_app_ring, fmap_app, Hvals.
  fold r1. rewrite run_cons_value, run_cons_ring, Hval, Hring.
  split; [done|exact Hempty].
Qed.

Lemma ring_drains_exactly_outstanding_witness :
  let ring :=
    Build_ring_buffer
      [Build_buff_desc 1 2 3; Build_buff_desc 4 5 6; Build_buff_desc 7 8 9]
      1 4294967295 in
  0 < 3 < UINT32_RANGE ∧ ring_wf 3 ring ∧
  outstanding ring = Z.of_nat 2 ∧
  reply_ret <$> value (run 3 (dequeue_calls 2 ++ [call_dequeue]) ring)
  = replicate 2 0 ++ [-1].
Proof.
  intros ring.
  assert (0 < 3 < UINT32_RANGE) as Hn by (unfold UINT32_RANGE; lia).
  assert (ring_wf 3 ring) as Hwf
    by (repeat split; vm_compute; (reflexivity || congruence)).
  assert (outstanding ring = Z.of_nat 2) as Hc by reflexivity.
  split; [exact Hn|]. split; [exact Hwf|]. split; [exact Hc|].
  exact (proj1 (ring_drains_exactly_outstanding 3 2 ring Hn Hwf Hc)).
Defined.

(** ** A ring of one slot *)

Lemma single_slot_predicates ring :
  ring_empty 1 ring = true ∧ ring_full 1 ring = true.
Proof. unfold ring_empty, ring_full. by rewrite !Z.mod_1_r. Qed.

(** X8: with a slot count of 1 every ring is empty and full at once: every
    call of every run returns -1 and the ring is never changed. *)
Theorem single_slot_ring_holds_nothing cs ring :
  ring_empty 1 ring = true ∧ ring_full 1 ring = true ∧
  reply_ret <$> value (run 1 cs ring) = replicate (length cs) (-1) ∧
  ring_after (run 1 cs ring) = ring.
Proof.
  destruct (single_slot_predicates ring) as [Hempty Hfull].
  split; [done|]. split; [done|].
  induction cs as [|c cs [IHv IHr]]; [done|].
  assert (reply_ret (value (step 1 c ring)) = -1 ∧
          ring_after (step 1 c ring) = ring) as [Hret Hring].
  { destruct c as [buffer len cookie|].
    - by destruct (step_enqueue_full 1 buffer len cookie ring Hfull)
        as [-> ->].
    - by destruct (step_dequeue_empty 1 ring Hempty) as [-> ->]. }
  rewrite run_cons_value, run_cons_ring, Hring, fmap_cons, Hret, IHv.
  done.
Qed.

(** ** One writer for each cursor *)

(** X9: whether they succeed or fail, [enqueue] never stores to [read_idx],
    and stores to no slot other than [write_idx % n]; [dequeue] stores to
    nothing but [read_idx]. *)
Theorem each_cursor_has_one_writer n ring :
  (∀ buffer len cookie l v,
     ev_store l v ∈ trace (enqueue n buffer len cookie ring) →
     l = at_write_idx ∨
     l = at_encoded_addr (write_idx ring mod n) ∨
     l = at_len (write_idx ring mod n) ∨
     l = at_cookie (write_idx ring mod n)) ∧
  (∀ l v, ev_store l v ∈ trace (dequeue n ring) → l = at_read_idx).
Proof.
  split.
  - intros buffer len cookie l v Hin.
    destruct (ring_full n ring) eqn:Hfull.
    + rewrite enqueue_full_eq in Hin by done. cbn [trace] in Hin.
      apply list_elem_of_singleton in Hin. discriminate Hin.
    + rewrite enqueue_ok_eq in Hin by done. cbn [trace] in Hin.
      unfold write_slot in Hin.
      repeat (apply elem_of_cons in Hin as [Hin|Hin];
              [inversion Hin; subst; tauto|]).
      by apply elem_of_nil in Hin.
  - intros l v Hin. destruct (ring_empty n ring) eqn:Hempty.
    + rewrite dequeue_empty_eq in Hin by done. cbn [trace] in Hin.
      apply list_elem_of_singleton in Hin. discriminate Hin.
    + rewrite dequeue_ok_eq in Hin by done. cbn [trace] in Hin.
      apply elem_of_cons in Hin as [Hin|Hin]; [discriminate Hin|].
      apply list_elem_of_singleton in Hin. by inversion Hin.
Qed.

Lemma each_cursor_has_one_writer_witness :
  let ring :=
    Build_ring_buffer
      [Build_buff_desc 1 2 3; Build_buff_desc 0 0 0; Build_buff_desc 0 0 0]
      1 0 in
  ev_store at_read_idx 1 ∈ trace (dequeue 3 ring) ∧
  ev_store (at_len 1) 64 ∈ trace (enqueue 3 4096 64 7 ring) ∧
  (at_len 1 = at_write_idx ∨ at_len 1 = at_encoded_addr (1 mod 3) ∨
   at_len 1 = at_len (1 mod 3) ∨ at_len 1 = at_cookie (1 mod 3)).
Proof.
  intros ring.
  assert (ev_store at_read_idx 1 ∈ trace (dequeue 3 ring)) as Hdeq
    by (apply list_elem_of_In; vm_compute; tauto).
  assert (ev_store (at_len 1) 64 ∈ trace (enqueue 3 4096 64 7 ring)) as Henq
    by (apply list_elem_of_In; vm_compute; tauto).
  split; [exact Hdeq|]. split; [exact Henq|].
  exact (proj1 (each_cursor_has_one_writer 3 ring) 4096 64 7 _ _ Henq).
Defined.

(** ** Calls through ring handles *)

Lemma handle_step_eq n c mem :
  handle_step n c mem
  = match mem !! target c with
    | Some ring =>
        Some (value (step n (ring_call c) ring),
              <[target c := ring_after (step n (ring_call c) ring)]> mem)
    | None => None
    end.
Proof.
  destruct c as [h addr len cookie|h addr len cookie|h|h];
    unfold handle_step, enqueue_avail, enqueue_used, dequeue_avail,
      dequeue_used, through;
    cbn [target ring_call];
    (destruct (mem !! _) as [ring|]; [|done]).
  - rewrite step_enqueue. by destruct (enqueue n addr len cookie ring).
  - rewrite step_enqueue. by destruct (enqueue n addr len cookie ring).
  - rewrite step_dequeue. by destruct (dequeue n ring).
  - rewrite step_dequeue. by destruct (dequeue n ring).
Qed.

Lemma handle_run_cons n c cs mem ring :
  mem !! target c = Some ring →
  handle_run n (c :: cs) mem
  = (rest ← handle_run n cs
              (<[target c := ring_after (step n (ring_call c) ring)]> mem);
     Some (value (step n (ring_call c) ring) :: rest.1, rest.2)).
Proof. intros Hring. cbn [handle_run]. by rewrite handle_step_eq, Hring. Qed.

Lemma handle_step_simulation n c mem qs :
  0 < n < UINT32_RANGE → (n | UINT32_RANGE) → memory_holds n mem qs →
  match handle_step n c mem, queues_step n c qs with
  | Some res, Some res' => res.1 = res'.1 ∧ memory_holds n res.2 res'.2
  | None, None => True
  | _, _ => False
  end.
Proof.
  intros Hn Hdiv Hmem. rewrite handle_step_eq. unfold queues_step.
  pose proof (Hmem (target c)) as Hc.
  destruct (mem !! target c) as [ring|], (qs !! target c) as [q|];
    cbn; try done.
  destruct Hc as [Hwf Hholds].
  destruct (step_simulation n (ring_call c) ring q Hn Hdiv Hwf Hholds)
    as [Hval Hholds1].
  destruct (step_wf n (ring_call c) ring Hn Hwf) as [Hwf1 _].
  split; [done|]. intros p.
  destruct (decide (p = target c)) as [->|Hne].
  - by rewrite !lookup_insert_eq.
  - rewrite !lookup_insert_ne by done. apply Hmem.
Qed.

Lemma handle_run_simulation n cs mem qs :
  0 < n < UINT32_RANGE → (n | UINT32_RANGE) → memory_holds n mem qs →
  fst <$> handle_run n cs mem = fst <$> queues_run n cs qs.
Proof.
  intros Hn Hdiv. revert mem qs.
  induction cs as [|c cs IH]; intros mem qs Hmem; [done|].
  cbn [handle_run queues_run].
  pose proof (handle_step_simulation n c mem qs Hn Hdiv Hmem) as Hstep.
  destruct (handle_step n c mem) as [[r mem1]|],
    (queues_step n c qs) as [[r' qs1]|]; cbn in *; try done.
  destruct Hstep as [-> Hmem1]. specialize (IH mem1 qs1 Hmem1).
  destruct (handle_run n cs mem1) as [[rs mem2]|],
    (queues_run n cs qs1) as [[rs' qs2]|]; cbn in *; congruence.
Qed.

(** X10: through handles, every ring of a shared memory is a FIFO queue of its
    own (slot count dividing 2^32, rings zero-initialised): whichever
    handles the calls go through, and whether or not two pointers name the
    same ring, every call returns what the queue at its target address
    returns, and a run is undefined exactly where a call goes to an address
    without a ring. *)
Theorem rings_of_a_memory_are_fifo_queues n cs (mem : shared_memory) :
  0 < n < UINT32_RANGE → (n | UINT32_RANGE) →
  map_Forall (λ _ ring, zero_initialised n ring) mem →
  fst <$> handle_run n cs mem
  = fst <$> queues_run n cs ((λ _, []) <$> mem).
Proof.
  intros Hn Hdiv Hzero. apply handle_run_simulation; [done|done|].
  intros p. rewrite lookup_fmap.
  destruct (mem !! p) as [ring|] eqn:Hp; cbn; [|done].
  destruct (zero_initialised_wf n ring) as [Hwf Hout];
    [lia|by apply (Hzero p)|].
  split; [done|]. split; [by rewrite Hout|]. intros i d Hi. done.
Qed.

Lemma rings_of_a_memory_are_fifo_queues_witness :
  let mem : shared_memory :=
    <[4096 := ring_zero 4]> (<[8192 := ring_zero 4]> ∅) in
  let hA := Build_ring_handle 8192 4096 1 in
  let hB := Build_ring_handle 8192 4096 2 in
  let cs := [call_enqueue_avail hA 10 11 12; call_enqueue_avail hA 13 14 15;
             call_dequeue_avail hB; call_enqueue_used hB 10 20 12;
             call_dequeue_used hA; call_dequeue_used hA] in
  0 < 4 < UINT32_RANGE ∧ (4 | UINT32_RANGE) ∧
  map_Forall (λ _ ring, zero_initialised 4 ring) mem ∧
  fst <$> handle_run 4 cs mem
  = fst <$> queues_run 4 cs ((λ _, []) <$> mem).
Proof.
  intros mem hA hB cs.
  assert (0 < 4 < UINT32_RANGE) as Hn by (unfold UINT32_RANGE; lia).
  assert (4 | UINT32_RANGE) as Hdiv by (exists 1073741824; reflexivity).
  assert (zero_initialised 4 (ring_zero 4)) as Hring
    by (apply ring_zero_initialised; lia).
  assert (map_Forall (λ _ ring, zero_initialised 4 ring) mem) as Hzero.
  { apply map_Forall_insert_2; [exact Hring|].
    apply map_Forall_insert_2; [exact Hring|]. apply map_Forall_empty. }
  split; [exact Hn|]. split; [exact Hdiv|]. split; [exact Hzero|].
  exact (rings_of_a_memory_are_fifo_queues 4 cs mem Hn Hdiv Hzero).
Defined.

(** X11: the hand-over of a buffer and its return, for every slot count from 2
    up: with both rings empty, what one endpoint enqueues as available the
    other endpoint, through its own handle to the same rings, dequeues
    unchanged, and what that one enqueues as used the first one dequeues
    unchanged; all four calls return 0. *)
Theorem buffer_handoff n hA hB (mem : shared_memory) ra ru
    addr len cookie addr' len' cookie' :
  2 <= n < UINT32_RANGE →
  avail_ring hA = avail_ring hB → used_ring hA = used_ring hB →
  avail_ring hA ≠ used_ring hA →
  mem !! avail_ring hA = Some ra → mem !! used_ring hA = Some ru →
  ring_wf n ra → ring_empty n ra = true →
  ring_wf n ru → ring_empty n ru = true →
  fst <$> handle_run n
            [call_enqueue_avail hA addr len cookie; call_dequeue_avail hB;
             call_enqueue_used hB addr' len' cookie'; call_dequeue_used hA]
            mem
  = Some [reply_enqueue 0;
          reply_dequeue 0 (Some (Build_buff_desc addr len cookie));
          reply_enqueue 0;
          reply_dequeue 0 (Some (Build_buff_desc addr' len' cookie'))].
Proof.
  intros Hn Havail Hused Hne Hma Hmu Hwfa Hemptya Hwfu Hemptyu.
  destruct (round_trip_steps n addr len cookie ra Hn Hwfa Hemptya)
    as [Ha1 Ha2].
  destruct (round_trip_steps n addr' len' cookie' ru Hn Hwfu Hemptyu)
    as [Hu1 Hu2].
  destruct hA as [pu pa fA], hB as [pu' pa' fB].
  cbn [avail_ring used_ring] in *. subst pa' pu'.
  rewrite (handle_run_cons _ _ _ _ ra) by done.
  cbn [target ring_call]. rewrite Ha1. cbn [value ring_after].
  rewrite (handle_run_cons _ _ _ _ (enqueued_ring n addr len cookie ra))
    by (cbn [target]; apply lookup_insert_eq).
  cbn [target ring_call]. rewrite Ha2. cbn [value ring_after].
  rewrite (handle_run_cons _ _ _ _ ru)
    by (cbn [target]; by rewrite !lookup_insert_ne).
  cbn [target ring_call]. rewrite Hu1. cbn [value ring_after].
  rewrite (handle_run_cons _ _ _ _ (enqueued_ring n addr' len' cookie' ru))
    by (cbn [target]; apply lookup_insert_eq).
  cbn [target ring_call]. rewrite Hu2. cbn [value ring_after].
  reflexivity.
Qed.

Lemma buffer_handoff_witness :
  let wrapped :=
    Build_ring_buffer (replicate 3 (Build_buff_desc 0 0 0))
      4294967295 4294967295 in
  let mem : shared_memory :=
    <[4096 := wrapped]> (<[8192 := ring_zero 3]> ∅) in
  let hA := Build_ring_handle 8192 4096 1 in
  let hB := Build_ring_handle 8192 4096 2 in
  2 <= 3 < UINT32_RANGE ∧
  avail_ring hA = avail_ring hB ∧ used_ring hA = used_ring hB ∧
  avail_ring hA ≠ used_ring hA ∧
  mem !! avail_ring hA = Some wrapped ∧
  mem !! used_ring hA = Some (ring_zero 3) ∧
  ring_wf 3 wrapped ∧ ring_empty 3 wrapped = true ∧
  ring_wf 3 (ring_zero 3) ∧ ring_empty 3 (ring_zero 3) = true ∧
  fst <$> handle_run 3
            [call_enqueue_avail hA 10 11 12; call_dequeue_avail hB;
             call_enqueue_used hB 10 20 12; call_dequeue_used hA] mem
  = Some [reply_enqueue 0; reply_dequeue 0 (Some (Build_buff_desc 10 11 12));
          reply_enqueue 0; reply_dequeue 0 (Some (Build_buff_desc 10 20 12))].
Proof.
  intros wrapped mem hA hB.
  assert (2 <= 3 < UINT32_RANGE) as Hn by (unfold UINT32_RANGE; lia).
  assert (avail_ring hA = avail_ring hB) as Havail by reflexivity.
  assert (used_ring hA = used_ring hB) as Hused by reflexivity.
  assert (avail_ring hA ≠ used_ring hA) as Hne by (vm_compute; congruence).
  assert (mem !! avail_ring hA = Some wrapped) as Hma by reflexivity.
  assert (mem !! used_ring hA = Some (ring_zero 3)) as Hmu by reflexivity.
  assert (ring_wf 3 wrapped) as Hwfa
    by (repeat split; vm_compute; (reflexivity || congruence)).
  assert (ring_empty 3 wrapped = true) as Hea by reflexivity.
  assert (ring_wf 3 (ring_zero 3)) as Hwfu
    by (repeat split; vm_compute; (reflexivity || congruence)).
  assert (ring_empty 3 (ring_zero 3) = true) as Heu by reflexivity.
  repeat (split; [assumption|]).
  exact (buffer_handoff 3 hA hB mem wrapped (ring_zero 3) 10 11 12 10 20 12
           Hn Havail Hused Hne Hma Hmu Hwfa Hea Hwfu Heu).
Defined.
